(** * Windsurf Workflow Launcher: the workflow registry of [src/extension.ts]

    A shallow embedding of [WorkflowTreeProvider] (scan, parse, sort, launch)
    and the properties of its specification.

    Conventions of the model.
    - A JavaScript string is the list of its UTF-16 code units.
    - [path] is Node's POSIX [path] module.
    - The file system is read through the tree below the designated
      subdirectory: the node of an entry is what [fs.readdir] and
      [fs.readFile] see at [path.join(dir, entry.name)].
    - [JSON.parse], [yaml.load], the collation behind [localeCompare] and the
      user's answer to the quick pick are parameters of the development. *)

From Stdlib Require Import String Ascii.
From Stdlib Require Import List NArith ZArith Lia Bool.
From Stdlib Require Import Sorting.Sorted Sorting.Permutation.
Import ListNotations.

Set Implicit Arguments.
Set Warnings "-register-all".

(* ================================================================== *)
(** ** JavaScript strings *)

Module JsString.

Definition jsstring := list N.

(** The code units of an ASCII literal. *)
Definition u (s : string) : jsstring :=
  map N_of_ascii (list_ascii_of_string s).
Arguments u s%_string.

Definition eqb (a b : jsstring) : bool :=
  if list_eq_dec N.eq_dec a b then true else false.

(** ECMAScript WhiteSpace and LineTerminator code points, the ones
    [String.prototype.trim] strips. All of them are single code units. *)
Definition isWhiteSpace (c : N) : bool :=
  ((9 <=? c) && (c <=? 13) || (c =? 32) || (c =? 160) || (c =? 5760)
   || (8192 <=? c) && (c <=? 8202)
   || (c =? 8232) || (c =? 8233) || (c =? 8239) || (c =? 8287)
   || (c =? 12288) || (c =? 65279))%N.

Fixpoint trimStart (s : jsstring) : jsstring :=
  match s with
  | c :: s' => if isWhiteSpace c then trimStart s' else s
  | [] => []
  end.

Definition trimEnd (s : jsstring) : jsstring := rev (trimStart (rev s)).

Definition trim (s : jsstring) : jsstring := trimEnd (trimStart s).

(** Lower case of one ASCII code unit. *)
Definition asciiLower (c : N) : N :=
  if ((65 <=? c) && (c <=? 90))%N then (c + 32)%N else c.

(** [String.prototype.toLowerCase]. ASCII letters are lowered; U+0130 and
    U+212A, the only other code points whose lower case contains an ASCII
    letter, get their Unicode lower case; any other code unit is kept (its
    real lower case is again outside ASCII). The program only compares the
    result with an ASCII literal, which this determines exactly. *)
Definition toLowerCase (s : jsstring) : jsstring :=
  flat_map (fun c =>
    if (c =? 304)%N then [105; 775]%N
    else if (c =? 8490)%N then [107]%N
    else [asciiLower c]) s.

(** [s] ends with the lower-case ASCII literal [suffix], ASCII letters of
    [s] compared without case: what a literal followed by [$] matches under the
    [i] flag of a regular expression that has no [u] flag (a code unit
    outside ASCII is never canonicalised to an ASCII one). *)
Definition endsWithIgnoreCase (suffix s : jsstring) : bool :=
  let n := length suffix in
  (n <=? length s)%nat &&
  eqb (map asciiLower (skipn (length s - n) s)) suffix.

End JsString.
Import JsString.

(* ================================================================== *)
(** ** Node's POSIX [path] module *)

Module Path.

Definition SLASH : N := 47.
Definition DOT : N := 46.

Definition isSep (c : N) : bool := (c =? SLASH)%N.

Fixpoint dropWhile (f : N -> bool) (s : jsstring) : jsstring :=
  match s with
  | c :: s' => if f c then dropWhile f s' else s
  | [] => []
  end.

Fixpoint takeWhile (f : N -> bool) (s : jsstring) : jsstring :=
  match s with
  | c :: s' => if f c then c :: takeWhile f s' else []
  | [] => []
  end.

Definition notSep (c : N) : bool := negb (isSep c).
Definition notDot (c : N) : bool := negb (c =? DOT)%N.

(** [path.basename(p)]. Scanning from the right: the trailing separators are
    skipped, then everything up to the next separator is the base name. *)
Definition basename (p : jsstring) : jsstring :=
  rev (takeWhile notSep (dropWhile isSep (rev p))).

(** [path.dirname(p)]. The scan from the right stops before index 0: trailing
    separators and the last segment are skipped, the separator found there
    ends the result. *)
Definition dirname (p : jsstring) : jsstring :=
  match p with
  | [] => [DOT]
  | c :: rest =>
      match dropWhile notSep (dropWhile isSep (rev rest)) with
      | [] => if isSep c then [SLASH] else [DOT]
      | _ :: before =>
          if isSep c && (length before =? 0)%nat then [SLASH; SLASH]
          else c :: rev before
      end
  end.

(** [path.extname(p)]: from the last dot of the base name to its end; empty
    when there is no dot, when the dot is the first unit of the base name, or
    when the base name is [".."]. *)
Definition extname (p : jsstring) : jsstring :=
  let r := rev (basename p) in
  match dropWhile notDot r with
  | [] => []
  | _ :: [] => []
  | _ :: before =>
      if eqb (takeWhile notDot r) [] && eqb before [DOT] then []
      else DOT :: rev (takeWhile notDot r)
  end.

(** The segments of [s] between separators: ["a//b"] has segments
    ["a"], [""], ["b"]. *)
Fixpoint split (s : jsstring) : list jsstring :=
  match s with
  | [] => [[]]
  | c :: s' =>
      if isSep c then [] :: split s'
      else match split s' with
           | seg :: segs => (c :: seg) :: segs
           | [] => [[c]]
           end
  end.

(** Segments joined by single separators. *)
Fixpoint joinSegs (segs : list jsstring) : jsstring :=
  match segs with
  | [] => []
  | [seg] => seg
  | seg :: segs' => seg ++ SLASH :: joinSegs segs'
  end.

(** One segment of [normalizeString]. The kept segments are a stack, last
    one first. Empty segments and ["."] are dropped; [".."] removes the last
    kept segment unless there is none or it is [".."] itself, where it is
    kept only for a relative path. *)
Definition normalizeStep (allowAboveRoot : bool)
    (kept : list jsstring) (seg : jsstring) : list jsstring :=
  if eqb seg [] || eqb seg [DOT] then kept
  else if eqb seg [DOT; DOT] then
    match kept with
    | top :: below =>
        if eqb top [DOT; DOT]
        then (if allowAboveRoot then seg :: kept else kept)
        else below
    | [] => if allowAboveRoot then [seg] else []
    end
  else seg :: kept.

Definition normalizeSegs (allowAboveRoot : bool) (p : jsstring)
  : list jsstring :=
  rev (fold_left (normalizeStep allowAboveRoot) (split p) []).

(** [path.normalize(p)]. *)
Definition normalize (p : jsstring) : jsstring :=
  match p with
  | [] => [DOT]
  | c :: _ =>
      let isAbsolute := isSep c in
      let trailingSeparator := isSep (last p 0%N) in
      let segs := normalizeSegs (negb isAbsolute) p in
      match segs with
      | [] =>
          if isAbsolute then [SLASH]
          else if trailingSeparator then [DOT; SLASH] else [DOT]
      | _ =>
          let body :=
            if trailingSeparator then joinSegs segs ++ [SLASH]
            else joinSegs segs in
          if isAbsolute then SLASH :: body else body
      end
  end.

(** [path.join(a, b)]: the non-empty arguments joined by a separator, then
    normalised; ["."] when both are empty. *)
Definition join (a b : jsstring) : jsstring :=
  match a, b with
  | [], [] => [DOT]
  | [], _ => normalize b
  | _, [] => normalize a
  | _, _ => normalize (a ++ SLASH :: b)
  end.

(** A name [fs.readdir] can return: not empty, without separator, and
    neither ["."] nor [".."]. *)
Definition isEntryName (n : jsstring) : bool :=
  negb (eqb n []) && forallb notSep n
  && negb (eqb n [DOT]) && negb (eqb n [DOT; DOT]).

(** Segments kept by the normalisation are not empty and hold no
    separator. *)
Definition properSegment (seg : jsstring) : Prop :=
  seg <> [] /\ forallb notSep seg = true.

End Path.

Import Path.

(* ================================================================== *)
(** ** Decoded values *)

Module Js.

(** What [JSON.parse] and [yaml.load] can return. [Other] stands for the
    remaining objects [yaml.load] builds (dates, binary data): like arrays
    and primitives they have no property called [name], [description] or
    [command]. *)
Inductive value : Type :=
| Undefined
| Null
| Boolean (b : bool)
| Number (ieee754 : N)
| Str (s : jsstring)
| Array (items : list value)
| Object (props : list (jsstring * value))
| Other.

Fixpoint lookup (key : jsstring) (props : list (jsstring * value)) : value :=
  match props with
  | [] => Undefined
  | (k, v) :: props' => if eqb k key then v else lookup key props'
  end.

(** [data?.key] for [key] among [name], [description], [command]. *)
Definition getProp (data : value) (key : jsstring) : value :=
  match data with
  | Object props => lookup key props
  | _ => Undefined
  end.

(** [v ?? d]. *)
Definition nullish (v d : value) : value :=
  match v with
  | Undefined | Null => d
  | _ => v
  end.

(** [typeof v === 'string' ? v : undefined]. *)
Definition stringOrUndefined (v : value) : option jsstring :=
  match v with
  | Str s => Some s
  | _ => None
  end.



End Js.

(* ================================================================== *)
(** ** The registry: data, file system, effects *)

(** A thrown value, by its [String(error)] rendering. *)
Definition exn := jsstring.

Record WorkflowDefinition : Type := mkWorkflow {
  label : jsstring;
  description : option jsstring;
  filePath : jsstring;
  command : option jsstring
}.

(** The part of [WorkflowTreeItem] the launch reads. *)
Record WorkflowTreeItem : Type := mkItem {
  itemLabel : jsstring;
  itemDescription : option jsstring;
  workflow : option WorkflowDefinition
}.

Record QuickPickItem : Type := mkPick {
  pickLabel : jsstring;
  pickDescription : option jsstring;
  pickWorkflow : WorkflowDefinition
}.

(** A directory entry as [fs.readdir(dir, { withFileTypes: true })] and the
    later reads see it. [File] is any entry whose [isDirectory()] is false,
    with the outcome of [fs.readFile]; [Unlistable] is a directory whose
    [fs.readdir] rejects. *)
Inductive fsnode : Type :=
| File (contents : exn + jsstring)
| Dir (entries : list (jsstring * fsnode))
| Unlistable (error : exn).

Definition isDirectory (n : fsnode) : bool :=
  match n with
  | File _ => false
  | _ => true
  end.

(** What the host gives the extension: the workspace folders ([None] when
    [vscode.workspace.workspaceFolders] is undefined) and, for a path, the
    node [fs.access] finds there ([None] when it rejects). *)
Record Env : Type := mkEnv {
  workspaceFolders : option (list jsstring);
  fs : jsstring -> option fsnode
}.

Record Watcher : Type := mkWatcher {
  watchBase : jsstring;
  watchPattern : jsstring
}.

(** The provider's fields. *)
Record Provider : Type := mkProvider {
  workflows : list WorkflowDefinition;
  watchers : list Watcher
}.

Inductive Event : Type :=
| ShowWarningMessage (message : jsstring)
| ShowInformationMessage (message : jsstring)
| ShowQuickPick (items : list QuickPickItem) (placeHolder : jsstring)
| CreateTerminal (name cwd : jsstring)
| TerminalShow (preserveFocus : bool)
| TerminalSendText (text : jsstring) (addNewLine : bool)
| DisposeWatcher (w : Watcher)
| FireDidChangeTreeData.

(** *** Async methods: provider state, exceptions and a trace of effects *)

Inductive Completion (A : Type) : Type :=
| Normal (a : A)
| Throw (e : exn).
Arguments Throw {A} e.

Record Reply (A : Type) : Type := mkReply {
  completion : Completion A;
  state : Provider;
  trace : list Event
}.

Definition M (A : Type) : Type := Provider -> Reply A.

Definition ret {A} (a : A) : M A := fun s => mkReply (Normal a) s [].

Definition bind {A B} (m : M A) (f : A -> M B) : M B := fun s =>
  let r := m s in
  match completion r with
  | Normal a =>
      let r' := f a (state r) in
      mkReply (completion r') (state r') (trace r ++ trace r')
  | Throw e => mkReply (Throw e) (state r) (trace r)
  end.

Notation "x <- m ;; k" := (bind m (fun x => k))
  (at level 61, m at next level, right associativity).
Notation "m ;; k" := (bind m (fun _ => k))
  (at level 61, right associativity).

Definition throw {A} (e : exn) : M A := fun s => mkReply (Throw e) s [].

Definition emit (ev : Event) : M unit := fun s => mkReply (Normal tt) s [ev].

Definition get : M Provider := fun s => mkReply (Normal s) s [].

Definition put (s : Provider) : M unit := fun _ => mkReply (Normal tt) s [].

(** [try { m } catch (error) { handler error }]. *)
Definition tryCatch {A} (m : M A) (handler : exn -> M A) : M A := fun s =>
  let r := m s in
  match completion r with
  | Normal _ => r
  | Throw e =>
      let r' := handler e (state r) in
      mkReply (completion r') (state r') (trace r ++ trace r')
  end.

(** [await] of a promise that is already settled. *)
Definition await {A} (settled : exn + A) : M A :=
  match settled with
  | inl e => throw e
  | inr a => ret a
  end.

(** [m] neither reads nor writes the provider's fields. *)
Definition stateFree {A} (m : M A) : Prop :=
  exists c t, forall s, m s = mkReply c s t.

(** *** Sorting *)

(** Binary order of collation keys. *)
Fixpoint keyCompare (a b : list N) : comparison :=
  match a, b with
  | [], [] => Eq
  | [], _ :: _ => Lt
  | _ :: _, [] => Gt
  | x :: a', y :: b' =>
      match N.compare x y with
      | Eq => keyCompare a' b'
      | c => c
      end
  end.

(** [Array.prototype.sort(compareFn)] for a consistent comparator: the
    stable sorted permutation. Each element is put before the first
    element of the sorted rest that it does not follow. *)
Fixpoint insertSorted {A} (compareFn : A -> A -> Z) (x : A) (l : list A)
  : list A :=
  match l with
  | [] => [x]
  | y :: l' =>
      if (compareFn x y <=? 0)%Z then x :: l
      else y :: insertSorted compareFn x l'
  end.

Definition sort {A} (compareFn : A -> A -> Z) (l : list A) : list A :=
  fold_right (insertSorted compareFn) [] l.

(** [x] is not put after [y] by the comparator. *)
Definition notAfter {A} (compareFn : A -> A -> Z) (x y : A) : Prop :=
  (compareFn x y <= 0)%Z.

(** *** Constants of the source *)

Definition QUOTE : N := 34.
Definition ENOTDIR : exn := u "Error: ENOTDIR: not a directory, scandir".

(** [String(error)] of the rejection of [fs.readdir(dir)] for a [dir] that is
    not a directory: the text ends with the path between single quotes. *)
Definition scandirError (dir : jsstring) : exn :=
  ENOTDIR ++ u " '" ++ dir ++ u "'".
Definition ENOENT : exn :=
  u "Error: ENOENT: no such file or directory, scandir".
Definition WINDSURF_DIR : jsstring := u ".windsurf".
Definition WATCH_PATTERN : jsstring :=
  u ".windsurf/**/*.{json,yaml,yml,workflow}".
Definition NO_WORKFLOWS : jsstring :=
  u "No workflows available. Add files to the .windsurf directory.".
Definition PLACEHOLDER : jsstring := u "Select a workflow to run".

(* ================================================================== *)
(** ** [WorkflowTreeProvider] *)

Section Registry.

(** [JSON.parse] and [yaml.load]: a decoded value or a thrown error. *)
Variable JSON_parse : jsstring -> exn + Js.value.
Variable yaml_load : jsstring -> exn + Js.value.

(** The collation key of the host's locale: [localeCompare] orders two
    strings as the binary order of their keys. *)
Variable collationKey : jsstring -> list N.

(** The user's answer to a quick pick; [None] when it is dismissed. *)
Variable showQuickPick : list QuickPickItem -> option QuickPickItem.

Definition localeCompare (a b : jsstring) : Z :=
  match keyCompare (collationKey a) (collationKey b) with
  | Lt => (-1)%Z
  | Eq => 0%Z
  | Gt => 1%Z
  end.

(** [/(\.workflow|\.ya?ml|\.json)$/i.test(fileName)] *)
Definition isWorkflowFile (fileName : jsstring) : bool :=
  endsWithIgnoreCase (u ".workflow") fileName
  || endsWithIgnoreCase (u ".yaml") fileName
  || endsWithIgnoreCase (u ".yml") fileName
  || endsWithIgnoreCase (u ".json") fileName.

(** The decoder call of [parseWorkflow]'s [try] block. *)
Definition decode (ext raw : jsstring) : M Js.value :=
  if eqb ext (u ".json") then await (JSON_parse raw)
  else
    v <- await (yaml_load raw) ;;
    ret (Js.nullish v (Js.Object [])).

(** [parseWorkflow(filePath)]; [file] is the outcome of
    [fs.readFile(filePath, 'utf8')]. *)
Definition parseWorkflow (filePath : jsstring) (file : exn + jsstring)
  : M WorkflowDefinition :=
  raw <- await file ;;
  let ext := toLowerCase (extname filePath) in
  data <- tryCatch (decode ext raw)
            (fun error =>
               emit (ShowWarningMessage
                       (u "Unable to parse workflow " ++ basename filePath
                          ++ u ": " ++ error)) ;;
               ret (Js.Object [])) ;;
  let label :=
    match Js.getProp data (u "name") with
    | Js.Str name =>
        if (0 <? length (trim name))%nat then trim name
        else basename filePath
    | _ => basename filePath
    end in
  let description := Js.stringOrUndefined (Js.getProp data (u "description")) in
  let command := Js.stringOrUndefined (Js.getProp data (u "command")) in
  ret (mkWorkflow label description filePath command).

(** [collectWorkflows(dir)]; [node] is what is found at [dir]. *)
Fixpoint collectWorkflows (dir : jsstring) (node : fsnode) {struct node}
  : M (list WorkflowDefinition) :=
  match node with
  | File _ => throw (scandirError dir)
  | Unlistable error => throw error
  | Dir entries =>
      (fix loop (entries : list (jsstring * fsnode))
                (results : list WorkflowDefinition) {struct entries}
         : M (list WorkflowDefinition) :=
         match entries with
         | [] => ret results
         | (name, entry) :: rest =>
             let fullPath := join dir name in
             if isDirectory entry then
               sub <- collectWorkflows fullPath entry ;;
               loop rest (results ++ sub)
             else if negb (isWorkflowFile name) then loop rest results
             else
               parsed <- parseWorkflow fullPath
                           (match entry with
                            | File contents => contents
                            | _ => inl ENOENT
                            end) ;;
               loop rest (results ++ [parsed])
         end) entries []
  end.

(** [pathExists(fsPath)]: [fs.access] with its rejection caught. *)
Definition pathExists (env : Env) (fsPath : jsstring) : M bool :=
  tryCatch
    (match fs env fsPath with
     | Some _ => ret true
     | None => throw ENOENT
     end)
    (fun _ => ret false).

(** The body of the [for (const folder of folders)] loop of
    [loadWorkflows], [found] being the local array [workflows]. *)
Fixpoint loadFolders (env : Env) (folders : list jsstring)
    (found : list WorkflowDefinition) : M (list WorkflowDefinition) :=
  match folders with
  | [] => ret found
  | folder :: rest =>
      let windsorDir := join folder WINDSURF_DIR in
      exists_ <- pathExists env windsorDir ;;
      if negb exists_ then loadFolders env rest found
      else
        folderWorkflows <-
          match fs env windsorDir with
          | Some node => collectWorkflows windsorDir node
          | None => throw ENOENT
          end ;;
        s <- get ;;
        put (mkProvider (workflows s)
               (watchers s ++ [mkWatcher folder WATCH_PATTERN])) ;;
        loadFolders env rest (found ++ folderWorkflows)
  end.

Definition compareLabels (a b : WorkflowDefinition) : Z :=
  localeCompare (label a) (label b).

Fixpoint disposeAll (ws : list Watcher) : M unit :=
  match ws with
  | [] => ret tt
  | w :: ws' => emit (DisposeWatcher w) ;; disposeAll ws'
  end.

(** [loadWorkflows()], one call run from its start to its end: no other
    scan is interleaved at its [await]s. *)
Definition loadWorkflows (env : Env) : M unit :=
  s <- get ;;
  disposeAll (watchers s) ;;
  put (mkProvider (workflows s) []) ;;
  let folders :=
    match workspaceFolders env with
    | Some l => l
    | None => []
    end in
  found <- loadFolders env folders [] ;;
  s' <- get ;;
  put (mkProvider (sort compareLabels found) (watchers s')).

Definition refresh (env : Env) : M unit :=
  loadWorkflows env ;;
  emit FireDidChangeTreeData.

Definition executeWorkflow (wf : WorkflowDefinition) : M unit :=
  let command :=
    match command wf with
    | Some c => c
    | None => u "windsurf run " ++ [QUOTE] ++ filePath wf ++ [QUOTE]
    end in
  let folder := dirname (filePath wf) in
  emit (CreateTerminal (u "Windsurf: " ++ label wf) folder) ;;
  emit (TerminalShow true) ;;
  emit (TerminalSendText command true).

(** [item?.workflow]: the record of the item the command was invoked with. *)
Definition hasWorkflow (item : option WorkflowTreeItem)
  : option WorkflowDefinition :=
  match item with
  | Some i => workflow i
  | None => None
  end.

Definition runWorkflow (item : option WorkflowTreeItem) : M unit :=
  match hasWorkflow item with
  | None =>
      s <- get ;;
      if (length (workflows s) =? 0)%nat then
        emit (ShowInformationMessage NO_WORKFLOWS)
      else
        let items :=
          map (fun wf => mkPick (label wf) (description wf) wf)
              (workflows s) in
        emit (ShowQuickPick items PLACEHOLDER) ;;
        match showQuickPick items with
        | None => ret tt
        | Some picked => executeWorkflow (pickWorkflow picked)
        end
  | Some wf => executeWorkflow wf
  end.

(** *** Reading the scan *)

(** The entries loop of [collectWorkflows], by name. *)
Definition collectEntries (dir : jsstring)
  : list (jsstring * fsnode) -> list WorkflowDefinition ->
    M (list WorkflowDefinition) :=
  fix loop (entries : list (jsstring * fsnode))
           (results : list WorkflowDefinition) {struct entries}
    : M (list WorkflowDefinition) :=
    match entries with
    | [] => ret results
    | (name, entry) :: rest =>
        let fullPath := join dir name in
        if isDirectory entry then
          sub <- collectWorkflows fullPath entry ;;
          loop rest (results ++ sub)
        else if negb (isWorkflowFile name) then loop rest results
        else
          parsed <- parseWorkflow fullPath
                      (match entry with
                       | File contents => contents
                       | _ => inl ENOENT
                       end) ;;
          loop rest (results ++ [parsed])
    end.

(** What the [try] block of [parseWorkflow] leaves for a file of contents
    [raw]: the decoded value, or the error the decoder threw. *)
Definition decoded (filePath raw : jsstring) : exn + Js.value :=
  if eqb (toLowerCase (extname filePath)) (u ".json") then JSON_parse raw
  else
    match yaml_load raw with
    | inl e => inl e
    | inr v => inr (Js.nullish v (Js.Object []))
    end.

(** The value of [data] after the [try] statement. *)
Definition dataOf (filePath raw : jsstring) : Js.value :=
  match decoded filePath raw with
  | inr data => data
  | inl _ => Js.Object []
  end.

(** The accepted files below [node], in the order of the scan: full path
    and outcome of reading. *)
Fixpoint acceptedFiles (dir : jsstring) (node : fsnode) {struct node}
  : list (jsstring * (exn + jsstring)) :=
  match node with
  | Dir entries =>
      (fix each (entries : list (jsstring * fsnode)) :=
         match entries with
         | [] => []
         | (name, entry) :: rest =>
             match entry with
             | File contents =>
                 if isWorkflowFile name then
                   (join dir name, contents) :: each rest
                 else each rest
             | _ => acceptedFiles (join dir name) entry ++ each rest
             end
         end) entries
  | _ => []
  end.

Definition acceptedEntries (dir : jsstring)
  : list (jsstring * fsnode) -> list (jsstring * (exn + jsstring)) :=
  fix each (entries : list (jsstring * fsnode)) :=
    match entries with
    | [] => []
    | (name, entry) :: rest =>
        match entry with
        | File contents =>
            if isWorkflowFile name then
              (join dir name, contents) :: each rest
            else each rest
        | _ => acceptedFiles (join dir name) entry ++ each rest
        end
    end.

(** Every directory below [node] can be listed and every accepted file can
    be read. *)
Fixpoint scannable (node : fsnode) : bool :=
  match node with
  | Dir entries =>
      (fix each (entries : list (jsstring * fsnode)) :=
         match entries with
         | [] => true
         | (name, entry) :: rest =>
             match entry with
             | File (inr _) => each rest
             | File (inl _) => negb (isWorkflowFile name) && each rest
             | _ => scannable entry && each rest
             end
         end) entries
  | _ => false
  end.

Definition scannableEntries : list (jsstring * fsnode) -> bool :=
  fix each (entries : list (jsstring * fsnode)) :=
    match entries with
    | [] => true
    | (name, entry) :: rest =>
        match entry with
        | File (inr _) => each rest
        | File (inl _) => negb (isWorkflowFile name) && each rest
        | _ => scannable entry && each rest
        end
    end.

(** The label, description and command [parseWorkflow] takes from [data]. *)
Definition recordOf (filePath : jsstring) (data : Js.value)
  : WorkflowDefinition :=
  mkWorkflow
    (match Js.getProp data (u "name") with
     | Js.Str name =>
         if (0 <? length (trim name))%nat then trim name
         else basename filePath
     | _ => basename filePath
     end)
    (Js.stringOrUndefined (Js.getProp data (u "description")))
    filePath
    (Js.stringOrUndefined (Js.getProp data (u "command"))).

(** The message of the warning for a file that does not decode. *)
Definition parseWarning (filePath : jsstring) (error : exn) : Event :=
  ShowWarningMessage
    (u "Unable to parse workflow " ++ basename filePath ++ u ": " ++ error).

(** The record of a file that does not decode. *)
Definition fallbackRecord (filePath : jsstring) : WorkflowDefinition :=
  mkWorkflow (basename filePath) None filePath None.

(** One accepted file and what the scan makes of it: its record and its
    notifications; when the contents do not decode, the fallback record and
    one warning. *)
Definition scannedAs (s : Provider) (f : jsstring * (exn + jsstring))
    (o : WorkflowDefinition * list Event) : Prop :=
  parseWorkflow (fst f) (snd f) s = mkReply (Normal (fst o)) s (snd o)
  /\ filePath (fst o) = fst f
  /\ forall raw e,
       snd f = inr raw -> decoded (fst f) raw = inl e ->
       o = (fallbackRecord (fst f), [parseWarning (fst f) e]).

(** A scan of a tree that can be read completes, with one outcome for each
    accepted file, in order. *)
Definition scanCompletes (dir : jsstring) (node : fsnode) : Prop :=
  forall s, scannable node = true ->
  exists outcomes,
    Forall2 (scannedAs s) (acceptedFiles dir node) outcomes
    /\ collectWorkflows dir node s
       = mkReply (Normal (map fst outcomes)) s (concat (map snd outcomes)).

(** What [parseWorkflow] returns for a file that was read when its decoder
    gave [outcome]: the record of the decoded value and no event, or the
    fallback record and one warning. *)
Definition parsedWith (outcome : exn + Js.value) (filePath : jsstring)
    (s : Provider) : Reply WorkflowDefinition :=
  match outcome with
  | inr data => mkReply (Normal (recordOf filePath data)) s []
  | inl error =>
      mkReply (Normal (fallbackRecord filePath)) s
        [parseWarning filePath error]
  end.

(** The outcome of the YAML decoder, [yaml.load(raw) ?? {}]. *)
Definition yamlOutcome (raw : jsstring) : exn + Js.value :=
  match yaml_load raw with
  | inl e => inl e
  | inr v => inr (Js.nullish v (Js.Object []))
  end.



(** A scan of a tree that cannot be read throws. *)
Definition scanThrows (dir : jsstring) (node : fsnode) : Prop :=
  forall s, scannable node = false ->
  exists e, completion (collectWorkflows dir node s) = Throw e.

End Registry.

(* ================================================================== *)
(** ** The tree view and the commands *)

Definition REFRESH_COMMAND : jsstring := u "windsurfWorkflowLauncher.refresh".
Definition RUN_COMMAND : jsstring := u "windsurfWorkflowLauncher.runWorkflow".

(** The [vscode.Command] of a tree item; its [arguments] are the item
    itself. *)
Record Command : Type := mkCommand {
  commandId : jsstring;
  commandTitle : jsstring
}.

(** The [options] object given to the constructor of [WorkflowTreeItem].
    [optDescription] is the [description] that [getChildren] puts in the
    options of its placeholder; the constructor does not read it. *)
Record ItemOptions : Type := mkOptions {
  optCommand : option Command;
  optContextValue : option jsstring;
  optTooltip : option jsstring;
  optWorkflow : option WorkflowDefinition;
  optDescription : option jsstring
}.

(** A [WorkflowTreeItem] with the fields the view shows. *)
Record TreeItem : Type := mkTreeItem {
  launchPart : WorkflowTreeItem;
  tooltip : option jsstring;
  contextValue : option jsstring;
  itemCommand : option Command
}.

(** [new WorkflowTreeItem(label, description, filePath, options)] *)
Definition newWorkflowTreeItem (label : jsstring)
    (description filePath : option jsstring) (options : ItemOptions)
  : TreeItem :=
  mkTreeItem
    (mkItem label description (optWorkflow options))
    (match optTooltip options with
     | Some t => Some t
     | None => filePath
     end)
    (optContextValue options)
    (optCommand options).

(** [item.command = c] *)
Definition setCommand (item : TreeItem) (c : Command) : TreeItem :=
  mkTreeItem (launchPart item) (tooltip item) (contextValue item) (Some c).

Definition NO_WORKFLOWS_FOUND : jsstring := u "No workflows found".
Definition PLACEHOLDER_TOOLTIP : jsstring :=
  u "Create workflow files inside the .windsurf directory to see them here.".

Definition placeholder : TreeItem :=
  newWorkflowTreeItem NO_WORKFLOWS_FOUND None None
    (mkOptions None (Some (u "empty"))
       (Some PLACEHOLDER_TOOLTIP)
       None
       (Some (u "Add files to the .windsurf directory"))).

(** [getChildren()] *)
Definition getChildren (this : Provider) : list TreeItem :=
  if (length (workflows this) =? 0)%nat then [placeholder]
  else
    map (fun wf =>
           let item :=
             newWorkflowTreeItem (label wf) (description wf)
               (Some (filePath wf))
               (mkOptions None (Some (u "workflow")) (Some (filePath wf))
                  (Some wf) None) in
           setCommand item (mkCommand RUN_COMMAND (u "Run Workflow")))
        (workflows this).

(** [getTreeItem(element)] *)
Definition getTreeItem (element : TreeItem) : TreeItem := element.

(** The folders of the workspace, [vscode.workspace.workspaceFolders ?? []]. *)
Definition foldersOf (env : Env) : list jsstring :=
  match workspaceFolders env with
  | Some l => l
  | None => []
  end.

(** The watchers of the folders that have the designated subdirectory. *)
Definition expectedWatchers (env : Env) (folders : list jsstring)
  : list Watcher :=
  map (fun folder => mkWatcher folder WATCH_PATTERN)
      (filter (fun folder =>
                 match fs env (join folder WINDSURF_DIR) with
                 | Some _ => true
                 | None => false
                 end) folders).

(** The events of a scan: disposals of watchers and warnings. *)
Definition isScanEvent (ev : Event) : bool :=
  match ev with
  | ShowWarningMessage _ | DisposeWatcher _ => true
  | _ => false
  end.

Definition scanEvent (ev : Event) : Prop := isScanEvent ev = true.

(** A warning of the notification surface. *)
Definition isWarning (ev : Event) : Prop :=
  exists message, ev = ShowWarningMessage message.

(** A decoded value that is a mapping. *)
Definition isMapping (v : Js.value) : bool :=
  match v with
  | Js.Object _ => true
  | _ => false
  end.

(** Every entry below [node] has a name [fs.readdir] can return. *)
Fixpoint wellNamed (node : fsnode) : bool :=
  match node with
  | Dir entries =>
      (fix each (entries : list (jsstring * fsnode)) :=
         match entries with
         | [] => true
         | (name, entry) :: rest =>
             isEntryName name && wellNamed entry && each rest
         end) entries
  | _ => true
  end.

Definition wellNamedEntries : list (jsstring * fsnode) -> bool :=
  fix each (entries : list (jsstring * fsnode)) :=
    match entries with
    | [] => true
    | (name, entry) :: rest =>
        isEntryName name && wellNamed entry && each rest
    end.

(** An accepted file whose path is a directory joined with an entry name. *)
Definition named (f : jsstring * (exn + jsstring)) : Prop :=
  exists d n, isEntryName n = true /\ fst f = join d n.

(** Every event of [m] satisfies [P]. *)
Definition emitsOnly {A} (P : Event -> Prop) (m : M A) : Prop :=
  forall s, Forall P (trace (m s)).

Section Commands.

Variable JSON_parse : jsstring -> exn + Js.value.
Variable yaml_load : jsstring -> exn + Js.value.
Variable collationKey : jsstring -> list N.
Variable showQuickPick : list QuickPickItem -> option QuickPickItem.

(** The handlers [activate] registers with [vscode.commands.registerCommand],
    by command identifier. *)
Definition registeredCommand (env : Env) (id : jsstring)
  : option (option TreeItem -> M unit) :=
  if eqb id REFRESH_COMMAND then
    Some (fun _ => refresh JSON_parse yaml_load collationKey env)
  else if eqb id RUN_COMMAND then
    Some (fun item => runWorkflow showQuickPick (option_map launchPart item))
  else None.

End Commands.

(* ================================================================== *)
(** ** Sample inputs *)

(** A YAML decoder for the examples: it knows the documents below and
    reports any other as a syntax error. *)
Definition sampleYAML (raw : jsstring) : exn + Js.value :=
  if eqb raw (u "name: Build") then
    inr (Js.Object [(u "name", Js.Str (u "Build"))])
  else if eqb raw (u "name: '   '") then
    inr (Js.Object [(u "name", Js.Str (u "   "))])
  else if eqb raw (u "description: '  '") then
    inr (Js.Object [(u "description", Js.Str (u "  "))])
  else if eqb raw (u "command: echo hi") then
    inr (Js.Object [(u "command", Js.Str (u "echo hi"))])
  else if eqb raw [] then inr Js.Undefined
  else inl (u "YAMLException: bad indentation of a mapping entry").

(** A JSON decoder for the examples. *)
Definition sampleJSON (raw : jsstring) : exn + Js.value :=
  if eqb raw (u "{}") then inr (Js.Object [])
  else if eqb raw (u "null") then inr Js.Null
  else inl (u "SyntaxError: Unexpected token").

(** Collation by code units. *)
Definition sampleKey (label : jsstring) : list N := label.

(** A user who dismisses every quick pick. *)
Definition dismiss (items : list QuickPickItem) : option QuickPickItem := None.

Definition EACCES : exn := u "Error: EACCES: permission denied, open".

(** [/proj/.windsurf]: two definitions that decode, one that does not, a
    dot file and a file that is not a definition and cannot be read. *)
Definition sampleTree : fsnode :=
  Dir [ (u "b.json", File (inr (u "{}")));
        (u "sub", Dir [ (u "a.yaml", File (inr (u "name: Build")));
                        (u "bad.yml", File (inr (u "name: [")));
                        (u "notes.txt", File (inl EACCES)) ]);
        (u ".json", File (inr (u "command: echo hi"))) ].

(** [/proj/.windsurf] with a definition that cannot be read. *)
Definition unreadableTree : fsnode :=
  Dir [ (u "a.yaml", File (inl EACCES));
        (u "b.yaml", File (inr (u "name: Build"))) ].

Definition at_proj (tree : fsnode) (p : jsstring) : option fsnode :=
  if eqb p (u "/proj/.windsurf") then Some tree else None.

Definition sampleEnv : Env :=
  mkEnv (Some [u "/other"; u "/proj"]) (at_proj sampleTree).

Definition unreadableEnv : Env :=
  mkEnv (Some [u "/proj"]) (at_proj unreadableTree).

Definition emptyProvider : Provider := mkProvider [] [].

Definition echoRecord : WorkflowDefinition :=
  mkWorkflow (u "Echo") None (u "/proj/.windsurf/echo.yaml")
    (Some (u "echo hi")).

Definition oneRecord : Provider := mkProvider [echoRecord] [].

(** A YAML decoder that also knows a document whose name has white space
    around it. *)
Definition paddedYAML (raw : jsstring) : exn + Js.value :=
  if eqb raw (u "name: ' Deploy app '") then
    inr (Js.Object [(u "name", Js.Str (u " Deploy app "))])
  else sampleYAML raw.

(** A workspace without folders. *)
Definition noFolders : Env := mkEnv None (at_proj sampleTree).

(** A workspace whose designated subdirectory is a file. *)
Definition fileAsSubdirectory : Env :=
  mkEnv (Some [u "/proj"]) (at_proj (File (inr (u "{}")))).

(** The records of a scan, none when it throws. *)
Definition recordsOf (r : Reply (list WorkflowDefinition))
  : list WorkflowDefinition :=
  match completion r with
  | Normal records => records
  | Throw _ => []
  end.

(* ================================================================== *)
(** * Properties *)

Unset Implicit Arguments.

(** ** Strings *)

Lemma eqb_eq (a b : jsstring) : eqb a b = true <-> a = b.
Proof.
  unfold eqb. destruct (list_eq_dec N.eq_dec a b); split; congruence.
Qed.


Lemma eqb_neq (a b : jsstring) : eqb a b = false <-> a <> b.
Proof.
  unfold eqb. destruct (list_eq_dec N.eq_dec a b); split; congruence.
Qed.



Lemma trimStart_head (s : jsstring) :
  match trimStart s with
  | [] => True
  | c :: _ => isWhiteSpace c = false
  end.
Proof.
  induction s as [|c s IH]; simpl; [exact I|].
  destruct (isWhiteSpace c) eqn:E; [exact IH | exact E].
Qed.


(** ** Paths *)

Lemma split_not_nil (s : jsstring) : split s <> [].
Proof.
  induction s as [|c s IH]; simpl; [discriminate|].
  destruct (isSep c); [discriminate|].
  destruct (split s); [congruence | discriminate].
Qed.

Lemma split_no_sep (n : jsstring) :
  forallb notSep n = true -> split n = [n].
Proof.
  induction n as [|c n IH]; simpl; [reflexivity|].
  intros H. apply andb_true_iff in H as [Hc Hn].
  unfold notSep in Hc. apply negb_true_iff in Hc.
  now rewrite Hc, (IH Hn).
Qed.

Lemma split_app_sep (a b : jsstring) :
  split (a ++ SLASH :: b) = split a ++ split b.
Proof.
  induction a as [|c a IH]; simpl.
  - reflexivity.
  - destruct (isSep c); [now rewrite IH|].
    rewrite IH. pose proof (split_not_nil a) as Ha.
    destruct (split a); [congruence | reflexivity].
Qed.

Lemma joinSegs_snoc (segs : list jsstring) (n : jsstring) :
  joinSegs (segs ++ [n]) =
  match segs with
  | [] => n
  | _ => joinSegs segs ++ SLASH :: n
  end.
Proof.
  induction segs as [|x segs IH]; [reflexivity|].
  destruct segs as [|y segs]; [reflexivity|].
  change (joinSegs ((x :: y :: segs) ++ [n]))
    with (x ++ SLASH :: joinSegs ((y :: segs) ++ [n])).
  rewrite IH. change (joinSegs (x :: y :: segs))
    with (x ++ SLASH :: joinSegs (y :: segs)).
  now rewrite <- app_assoc.
Qed.

Lemma isEntryName_spec (n : jsstring) :
  isEntryName n = true ->
  n <> [] /\ forallb notSep n = true /\ n <> [DOT] /\ n <> [DOT; DOT].
Proof.
  unfold isEntryName. rewrite !andb_true_iff, !negb_true_iff, !eqb_neq.
  tauto.
Qed.

Lemma normalizeStep_entry (allow : bool) (kept : list jsstring) (n : jsstring) :
  isEntryName n = true -> normalizeStep allow kept n = n :: kept.
Proof.
  intros H. apply isEntryName_spec in H as (H0 & _ & H1 & H2).
  unfold normalizeStep.
  apply eqb_neq in H0, H1, H2. now rewrite H0, H1, H2.
Qed.

Lemma last_no_sep (n : jsstring) (d : N) :
  n <> [] -> forallb notSep n = true -> isSep (last n d) = false.
Proof.
  intros Hn H. rewrite forallb_forall in H.
  destruct (exists_last Hn) as (n' & c & ->).
  rewrite last_last. specialize (H c).
  unfold notSep in H. apply negb_true_iff, H, in_or_app. right. now left.
Qed.

Lemma takeWhile_app_stop (f : N -> bool) (a b : jsstring) :
  forallb f a = true ->
  match b with [] => True | c :: _ => f c = false end ->
  takeWhile f (a ++ b) = a.
Proof.
  intros Ha Hb. induction a as [|x a IH]; simpl.
  - destruct b as [|c b]; [reflexivity | simpl; now rewrite Hb].
  - simpl in Ha. apply andb_true_iff in Ha as [Hx Ha].
    now rewrite Hx, IH.
Qed.

(** The base name of a path that ends with a name after a separator. *)
Lemma basename_after_sep (pre n : jsstring) :
  n <> [] -> forallb notSep n = true ->
  pre = [] \/ (exists pre', pre = pre' ++ [SLASH]) ->
  basename (pre ++ n) = n.
Proof.
  intros Hn Hs Hpre. unfold basename. rewrite rev_app_distr.
  assert (Hr : forallb notSep (rev n) = true).
  { rewrite forallb_forall in *. intros c Hc. apply Hs. now apply in_rev. }
  destruct (rev n) as [|c r] eqn:E.
  { exfalso. apply Hn. rewrite <- (rev_involutive n), E. reflexivity. }
  assert (Hc : isSep c = false).
  { simpl in Hr. apply andb_true_iff in Hr as [Hc _].
    unfold notSep in Hc. now apply negb_true_iff. }
  change (((c :: r) ++ rev pre)) with (c :: (r ++ rev pre)).
  cbn [dropWhile]. rewrite Hc.
  change (c :: (r ++ rev pre)) with ((c :: r) ++ rev pre).
  rewrite takeWhile_app_stop; [| exact Hr |].
  - rewrite <- E. apply rev_involutive.
  - destruct Hpre as [-> | (pre' & ->)]; [exact I|].
    rewrite rev_app_distr. reflexivity.
Qed.

Lemma normalize_cons (p : jsstring) (c : N) (rest : jsstring) :
  p = c :: rest ->
  normalize p =
  match normalizeSegs (negb (isSep c)) p with
  | [] =>
      if isSep c then [SLASH]
      else if isSep (last p 0%N) then [DOT; SLASH] else [DOT]
  | segs =>
      let body :=
        if isSep (last p 0%N) then joinSegs segs ++ [SLASH]
        else joinSegs segs in
      if isSep c then SLASH :: body else body
  end.
Proof.
  intros ->. unfold normalize. cbv zeta.
  destruct (normalizeSegs (negb (isSep c)) (c :: rest)); reflexivity.
Qed.

Lemma endsWithIgnoreCase_spec (suffix str : jsstring) :
  endsWithIgnoreCase suffix str = true <->
  exists stem ext, str = stem ++ ext /\ map asciiLower ext = suffix.
Proof.
  unfold endsWithIgnoreCase. rewrite andb_true_iff, Nat.leb_le, eqb_eq.
  split.
  - intros [_ He].
    exists (firstn (length str - length suffix) str),
           (skipn (length str - length suffix) str).
    split; [symmetry; apply firstn_skipn | exact He].
  - intros (stem & ext & -> & <-). rewrite length_app, length_map.
    split; [lia|].
    replace (length stem + length ext - length ext)%nat
      with (length stem) by lia.
    now rewrite skipn_app, skipn_all, Nat.sub_diag.
Qed.

(** *** The directory of an entry *)

Lemma dropWhile_all (f : N -> bool) (a : jsstring) :
  forallb f a = true -> dropWhile f a = [].
Proof.
  induction a as [|x a IH]; simpl; [reflexivity|].
  intros H. apply andb_true_iff in H as [Hx Ha]. now rewrite Hx, IH.
Qed.

Lemma dropWhile_app_stop (f : N -> bool) (a b : jsstring) (c : N) :
  forallb f a = true -> f c = false -> dropWhile f (a ++ c :: b) = c :: b.
Proof.
  intros Ha Hc. induction a as [|x a IH]; simpl.
  - now rewrite Hc.
  - simpl in Ha. apply andb_true_iff in Ha as [Hx Ha]. now rewrite Hx, IH.
Qed.

Lemma rev_no_sep (n : jsstring) :
  forallb notSep n = true -> forallb notSep (rev n) = true.
Proof.
  rewrite !forallb_forall. intros H c Hc. apply H. now apply in_rev.
Qed.

Lemma dropWhile_isSep_no_sep (n rest : jsstring) :
  n <> [] -> forallb notSep n = true ->
  dropWhile isSep (n ++ rest) = n ++ rest.
Proof.
  intros Hn Hs. destruct n as [|c n]; [congruence|].
  simpl in Hs. apply andb_true_iff in Hs as [Hc _].
  unfold notSep in Hc. apply negb_true_iff in Hc. simpl. now rewrite Hc.
Qed.

(** The directory of a path that ends with a separator and a name is what
    precedes the separator. *)
Lemma dirname_after_sep (pre n : jsstring) :
  n <> [] -> forallb notSep n = true ->
  pre <> [] -> pre <> [SLASH] ->
  dirname (pre ++ SLASH :: n) = pre.
Proof.
  intros Hn Hs Hpre Hroot. destruct pre as [|c t]; [congruence|].
  cbn [app dirname].
  assert (Hrev : rev (t ++ SLASH :: n) = rev n ++ SLASH :: rev t).
  { rewrite rev_app_distr. cbn [rev]. now rewrite <- app_assoc. }
  rewrite Hrev.
  rewrite dropWhile_isSep_no_sep;
    [| intros E; apply Hn; now rewrite <- (rev_involutive n), E
     | now apply rev_no_sep].
  rewrite dropWhile_app_stop; [| now apply rev_no_sep | reflexivity].
  rewrite rev_involutive, length_rev.
  destruct t as [|d t].
  - destruct (isSep c) eqn:Ec; [|reflexivity].
    apply N.eqb_eq in Ec. congruence.
  - cbn [length Nat.eqb]. now rewrite andb_false_r.
Qed.

Lemma dirname_bare (n : jsstring) :
  n <> [] -> forallb notSep n = true -> dirname n = [DOT].
Proof.
  intros Hn Hs. destruct n as [|c n]; [congruence|].
  simpl in Hs. apply andb_true_iff in Hs as [Hc Hs].
  unfold notSep in Hc. apply negb_true_iff in Hc.
  cbn [dirname]. destruct (rev n) as [|x r] eqn:E.
  - cbn. now rewrite Hc.
  - rewrite <- E.
    rewrite <- (app_nil_r (rev n)), dropWhile_isSep_no_sep, app_nil_r;
      [| rewrite E; discriminate | now apply rev_no_sep].
    rewrite dropWhile_all by now apply rev_no_sep. now rewrite Hc.
Qed.

Lemma dirname_root_entry (n : jsstring) :
  forallb notSep n = true -> dirname (SLASH :: n) = [SLASH].
Proof.
  intros Hs. cbn [dirname]. destruct (rev n) as [|x r] eqn:E.
  - reflexivity.
  - rewrite <- E.
    rewrite <- (app_nil_r (rev n)), dropWhile_isSep_no_sep, app_nil_r;
      [| rewrite E; discriminate | now apply rev_no_sep].
    now rewrite dropWhile_all by now apply rev_no_sep.
Qed.

Lemma split_segments_no_sep (str : jsstring) :
  Forall (fun seg => forallb notSep seg = true) (split str).
Proof.
  induction str as [|c str IH]; simpl.
  - now constructor.
  - destruct (isSep c) eqn:Ec; [now constructor|].
    assert (Hc : notSep c = true) by (unfold notSep; now rewrite Ec).
    destruct (split str) as [|seg segs].
    + constructor; [simpl; now rewrite Hc | constructor].
    + inversion IH; subst. constructor; [|assumption].
      simpl. now rewrite Hc.
Qed.

Lemma normalizeStep_proper (allow : bool) (kept : list jsstring)
    (seg : jsstring) :
  forallb notSep seg = true -> Forall properSegment kept ->
  Forall properSegment (normalizeStep allow kept seg).
Proof.
  intros Hseg Hkept. unfold normalizeStep.
  destruct (eqb seg []) eqn:E0; [exact Hkept|].
  destruct (eqb seg [DOT]); [exact Hkept|]. cbn [orb].
  apply eqb_neq in E0.
  assert (Hp : properSegment seg) by now split.
  destruct (eqb seg [DOT; DOT]).
  - destruct kept as [|top below].
    + destruct allow; constructor; [exact Hp | constructor].
    + destruct (eqb top [DOT; DOT]).
      * destruct allow; [now constructor | exact Hkept].
      * now inversion Hkept.
  - now constructor.
Qed.

Lemma normalizeSegs_proper (allow : bool) (p : jsstring) :
  Forall properSegment (normalizeSegs allow p).
Proof.
  unfold normalizeSegs. apply Forall_rev.
  assert (H : forall segs kept,
            Forall (fun seg => forallb notSep seg = true) segs ->
            Forall properSegment kept ->
            Forall properSegment (fold_left (normalizeStep allow) segs kept)).
  { induction segs as [|seg segs IH]; intros kept Hsegs Hkept; [exact Hkept|].
    inversion Hsegs; subst. cbn [fold_left]. apply IH; [assumption|].
    now apply normalizeStep_proper. }
  apply H; [apply split_segments_no_sep | constructor].
Qed.

Lemma joinSegs_head (k : jsstring) (kept : list jsstring) :
  properSegment k ->
  exists c rest, joinSegs (k :: kept) = c :: rest /\ isSep c = false.
Proof.
  intros [Hk Hs]. destruct k as [|c k']; [congruence|].
  simpl in Hs. apply andb_true_iff in Hs as [Hc _].
  unfold notSep in Hc. apply negb_true_iff in Hc.
  destruct kept as [|k2 kept'].
  - now exists c, k'.
  - exists c, (k' ++ SLASH :: joinSegs (k2 :: kept')). now split.
Qed.

(** [path.join(dir, name)] for an entry name: the name alone, the name
    below the root, or the name after a directory and a separator. *)
Lemma join_entry_shape (dir n : jsstring) :
  isEntryName n = true ->
  join dir n = n
  \/ join dir n = SLASH :: n
  \/ exists pre, join dir n = pre ++ SLASH :: n /\ pre <> [] /\ pre <> [SLASH].
Proof.
  intros He. pose proof (isEntryName_spec _ He) as (Hn & Hs & _ & _).
  assert (Hlast : forall q d, isSep (last (q ++ n) d) = false).
  { intros q d. destruct (exists_last Hn) as (n' & c & Hc).
    rewrite Hc, app_assoc, last_last, <- (last_last n' c d), <- Hc.
    now apply last_no_sep. }
  destruct n as [|c0 n']; [congruence|].
  assert (Hc0 : isSep c0 = false).
  { simpl in Hs. apply andb_true_iff in Hs as [H _].
    unfold notSep in H. now apply negb_true_iff. }
  destruct dir as [|d dir'].
  - left.
    change (join [] (c0 :: n')) with (normalize (c0 :: n')).
    rewrite (normalize_cons _ c0 n' eq_refl). unfold normalizeSegs.
    rewrite (split_no_sep _ Hs). cbn [fold_left].
    rewrite (normalizeStep_entry _ _ _ He). cbn [rev app].
    specialize (Hlast [] 0%N). cbn [app] in Hlast. rewrite Hlast, Hc0.
    reflexivity.
  - assert (Hsegs : forall allow,
              normalizeSegs allow ((d :: dir') ++ SLASH :: c0 :: n')
              = normalizeSegs allow (d :: dir') ++ [c0 :: n']).
    { intros allow. unfold normalizeSegs.
      rewrite split_app_sep, (split_no_sep _ Hs), fold_left_app.
      cbn [fold_left]. now rewrite (normalizeStep_entry _ _ _ He). }
    change (join (d :: dir') (c0 :: n'))
      with (normalize ((d :: dir') ++ SLASH :: c0 :: n')).
    rewrite (normalize_cons ((d :: dir') ++ SLASH :: c0 :: n') d
               (dir' ++ SLASH :: c0 :: n') eq_refl).
    rewrite Hsegs.
    replace (last ((d :: dir') ++ SLASH :: c0 :: n') 0%N)
      with (last (((d :: dir') ++ [SLASH]) ++ c0 :: n') 0%N)
      by now rewrite <- app_assoc.
    rewrite Hlast.
    pose proof (normalizeSegs_proper (negb (isSep d)) (d :: dir')) as Hkept.
    set (kept := normalizeSegs (negb (isSep d)) (d :: dir')) in *.
    destruct (kept ++ [c0 :: n']) as [|x l] eqn:E.
    { apply app_eq_nil in E as [_ E]. discriminate. }
    rewrite <- E. cbv zeta. rewrite joinSegs_snoc.
    destruct kept as [|k kept'].
    + destruct (isSep d); [right; left | left]; reflexivity.
    + right. right. inversion Hkept as [|? ? Hk _]; subst.
      destruct (joinSegs_head k kept' Hk) as (c & rest & Hj & Hc).
      destruct (isSep d).
      * exists (SLASH :: joinSegs (k :: kept')).
        split; [reflexivity|]. rewrite Hj. split; discriminate.
      * exists (joinSegs (k :: kept')).
        split; [reflexivity|]. rewrite Hj. split; [discriminate|].
        intros [= -> _]. discriminate.
Qed.

Lemma join_entry (dir n : jsstring) :
  isEntryName n = true ->
  exists pre, join dir n = pre ++ n
              /\ (pre = [] \/ exists pre', pre = pre' ++ [SLASH]).
Proof.
  intros He. destruct (join_entry_shape dir n He) as [H | [H | (pre & H & _)]].
  - exists []. split; [exact H | now left].
  - exists [SLASH]. split; [exact H | right; now exists []].
  - exists (pre ++ [SLASH]). split; [now rewrite <- app_assoc|].
    right. now exists pre.
Qed.

(** The base name of an entry's full path is the entry's name. *)
Lemma basename_join (dir n : jsstring) :
  isEntryName n = true -> basename (join dir n) = n.
Proof.
  intros He. destruct (join_entry dir _ He) as (pre & -> & Hpre).
  apply isEntryName_spec in He as (Hn & Hs & _).
  now apply basename_after_sep.
Qed.

Lemma basename_entry (n : jsstring) :
  isEntryName n = true -> basename n = n.
Proof.
  intros He. apply isEntryName_spec in He as (Hn & Hs & _).
  apply (basename_after_sep [] n Hn Hs). now left.
Qed.

(** The extension of an entry's full path is the extension of its name. *)
Lemma extname_join (dir n : jsstring) :
  isEntryName n = true -> extname (join dir n) = extname n.
Proof.
  intros He. unfold extname.
  now rewrite (basename_join dir n He), (basename_entry n He).
Qed.

(** The directory of an entry's full path: what precedes the separator
    and the name; the root for an entry of the root, [.] for a bare name. *)
Lemma dirname_join (dir n : jsstring) :
  isEntryName n = true ->
  (join dir n = n /\ dirname (join dir n) = [DOT])
  \/ (join dir n = SLASH :: n /\ dirname (join dir n) = [SLASH])
  \/ join dir n = dirname (join dir n) ++ SLASH :: n.
Proof.
  intros He. pose proof (isEntryName_spec _ He) as (Hn & Hs & _ & _).
  destruct (join_entry_shape dir n He)
    as [H | [H | (pre & H & Hpre & Hroot)]]; rewrite H.
  - left. split; [reflexivity | now apply dirname_bare].
  - right. left. split; [reflexivity | now apply dirname_root_entry].
  - right. right. now rewrite dirname_after_sep.
Qed.

(** ** The monad *)

Lemma bind_normal {A B} (m : M A) (f : A -> M B) (s s' : Provider)
    (a : A) (t : list Event) :
  m s = mkReply (Normal a) s' t ->
  bind m f s
  = mkReply (completion (f a s')) (state (f a s')) (t ++ trace (f a s')).
Proof. intros H. unfold bind. now rewrite H. Qed.

Lemma bind_throw {A B} (m : M A) (f : A -> M B) (s s' : Provider)
    (e : exn) (t : list Event) :
  m s = mkReply (Throw e) s' t -> bind m f s = mkReply (Throw e) s' t.
Proof. intros H. unfold bind. now rewrite H. Qed.

Lemma reply_eta {A} (r : Reply A) :
  mkReply (completion r) (state r) (trace r) = r.
Proof. now destruct r. Qed.

Lemma bind_ret {A B} (a : A) (f : A -> M B) (s : Provider) :
  bind (ret a) f s = f a s.
Proof. unfold bind, ret. cbn. apply reply_eta. Qed.

Lemma bind_get {B} (f : Provider -> M B) (s : Provider) :
  bind get f s = f s s.
Proof. unfold bind, get. cbn. apply reply_eta. Qed.

Lemma bind_put {B} (s' : Provider) (f : unit -> M B) (s : Provider) :
  bind (put s') f s = f tt s'.
Proof. unfold bind, put. cbn. apply reply_eta. Qed.

Lemma bind_emit {B} (ev : Event) (f : unit -> M B) (s : Provider) :
  bind (emit ev) f s
  = mkReply (completion (f tt s)) (state (f tt s)) (ev :: trace (f tt s)).
Proof. reflexivity. Qed.

(** Induction on a directory tree, with the property for every entry of a
    directory. *)
Fixpoint fsnode_entries_ind (P : fsnode -> Prop)
    (HFile : forall contents, P (File contents))
    (HDir : forall entries, Forall (fun ne => P (snd ne)) entries ->
                            P (Dir entries))
    (HUnlistable : forall error, P (Unlistable error))
    (node : fsnode) {struct node} : P node :=
  match node with
  | File contents => HFile contents
  | Unlistable error => HUnlistable error
  | Dir entries =>
      HDir entries
        ((fix each (entries : list (jsstring * fsnode))
            : Forall (fun ne => P (snd ne)) entries :=
            match entries with
            | [] => Forall_nil _
            | ne :: rest =>
                Forall_cons ne
                  (fsnode_entries_ind P HFile HDir HUnlistable (snd ne))
                  (each rest)
            end) entries)
  end.

(** ** Sorting *)

Lemma keyCompare_opp (a b : list N) :
  keyCompare b a = CompOpp (keyCompare a b).
Proof.
  revert b. induction a as [|x a IH]; intros [|y b]; simpl; try reflexivity.
  rewrite (N.compare_antisym x y).
  destruct (N.compare x y); simpl; [apply IH | reflexivity | reflexivity].
Qed.

Lemma keyCompare_le_trans (a b c : list N) :
  keyCompare a b <> Gt -> keyCompare b c <> Gt -> keyCompare a c <> Gt.
Proof.
  revert b c. induction a as [|x a IH]; intros [|y b] [|z c]; simpl;
    try congruence.
  destruct (N.compare_spec x y) as [-> | Hxy | Hxy]; try congruence.
  - destruct (N.compare_spec y z) as [-> | Hyz | Hyz]; try congruence.
    apply IH.
  - intros _. destruct (N.compare_spec y z) as [-> | Hyz | Hyz];
      try congruence; intros _.
    + destruct (N.compare_spec x z); [lia | congruence | lia].
    + destruct (N.compare_spec x z); [lia | congruence | lia].
Qed.

Section Sorting.

Variable A : Type.
Variable compareFn : A -> A -> Z.

Local Abbreviation inOrder := (notAfter compareFn).

(** A consistent comparator. *)
Hypothesis compare_total : forall x y, ~ inOrder x y -> inOrder y x.
Hypothesis compare_trans :
  forall x y z, inOrder x y -> inOrder y z -> inOrder x z.

Lemma insertSorted_perm (x : A) (l : list A) :
  Permutation (x :: l) (insertSorted compareFn x l).
Proof.
  induction l as [|y l IH]; simpl; [reflexivity|].
  destruct (compareFn x y <=? 0)%Z; [reflexivity|].
  rewrite perm_swap. now constructor.
Qed.

Lemma insertSorted_sorted (x : A) (l : list A) :
  StronglySorted inOrder l ->
  StronglySorted inOrder (insertSorted compareFn x l).
Proof.
  induction 1 as [|y l Hl IH Hy]; simpl.
  - constructor; constructor.
  - destruct (compareFn x y <=? 0)%Z eqn:E.
    + apply Z.leb_le in E. constructor; [now constructor|].
      constructor; [exact E|].
      eapply Forall_impl; [|exact Hy]. intros z Hz.
      now apply compare_trans with y.
    + apply Z.leb_gt in E. constructor; [exact IH|].
      apply (Permutation_Forall (insertSorted_perm x l)).
      constructor; [|exact Hy].
      apply compare_total. intros Hle. unfold notAfter in Hle. lia.
Qed.

Lemma sort_perm (l : list A) : Permutation l (sort compareFn l).
Proof.
  induction l as [|x l IH]; simpl; [constructor|].
  rewrite <- insertSorted_perm. now constructor.
Qed.

Lemma sort_sorted (l : list A) : StronglySorted inOrder (sort compareFn l).
Proof.
  induction l as [|x l IH]; simpl; [constructor|].
  now apply insertSorted_sorted.
Qed.

End Sorting.

(** ** Methods that leave the provider alone *)

Lemma stateFree_ret {A} (a : A) : stateFree (ret a).
Proof. now exists (Normal a), []. Qed.

Lemma stateFree_throw {A} (e : exn) : stateFree (@throw A e).
Proof. now exists (Throw e), []. Qed.

Lemma stateFree_emit (ev : Event) : stateFree (emit ev).
Proof. now exists (Normal tt), [ev]. Qed.

Lemma stateFree_await {A} (settled : exn + A) : stateFree (await settled).
Proof. destruct settled; [apply stateFree_throw | apply stateFree_ret]. Qed.

Lemma stateFree_bind {A B} (m : M A) (f : A -> M B) :
  stateFree m -> (forall a, stateFree (f a)) -> stateFree (bind m f).
Proof.
  intros (c & t & Hm) Hf. destruct c as [a|e].
  - destruct (Hf a) as (c' & t' & Hfa). exists c', (t ++ t'). intros s.
    unfold bind. rewrite Hm. cbn [completion state trace]. now rewrite Hfa.
  - exists (Throw e), t. intros s. unfold bind. now rewrite Hm.
Qed.

Lemma stateFree_tryCatch {A} (m : M A) (h : exn -> M A) :
  stateFree m -> (forall e, stateFree (h e)) -> stateFree (tryCatch m h).
Proof.
  intros (c & t & Hm) Hh. destruct c as [a|e].
  - exists (Normal a), t. intros s. unfold tryCatch. now rewrite Hm.
  - destruct (Hh e) as (c' & t' & Hhe). exists c', (t ++ t'). intros s.
    unfold tryCatch. rewrite Hm. cbn [completion state trace]. now rewrite Hhe.
Qed.


(** ** The scan *)

Section RegistryProperties.

Variable JSON_parse : jsstring -> exn + Js.value.
Variable yaml_load : jsstring -> exn + Js.value.
Variable collationKey : jsstring -> list N.
Variable showQuickPick : list QuickPickItem -> option QuickPickItem.

Local Abbreviation parseFile := (parseWorkflow JSON_parse yaml_load).
Local Abbreviation collect := (collectWorkflows JSON_parse yaml_load).
Local Abbreviation collectLoop := (collectEntries JSON_parse yaml_load).
Local Abbreviation decodedAt := (decoded JSON_parse yaml_load).
Local Abbreviation dataAt := (dataOf JSON_parse yaml_load).
Local Abbreviation yamlOf := (yamlOutcome yaml_load).
Local Abbreviation scannedAs := (scannedAs JSON_parse yaml_load).
Local Abbreviation scanCompletes := (scanCompletes JSON_parse yaml_load).
Local Abbreviation scanThrows := (scanThrows JSON_parse yaml_load).
Local Abbreviation loadRoots := (loadFolders JSON_parse yaml_load).
Local Abbreviation load := (loadWorkflows JSON_parse yaml_load collationKey).
Local Abbreviation byLabel := (compareLabels collationKey).
Local Abbreviation run := (runWorkflow showQuickPick).

Lemma collectWorkflows_Dir (dir : jsstring)
    (entries : list (jsstring * fsnode)) :
  collect dir (Dir entries) = collectLoop dir entries [].
Proof. reflexivity. Qed.

Lemma acceptedFiles_Dir (dir : jsstring) (entries : list (jsstring * fsnode)) :
  acceptedFiles dir (Dir entries) = acceptedEntries dir entries.
Proof. reflexivity. Qed.

Lemma scannable_Dir (entries : list (jsstring * fsnode)) :
  scannable (Dir entries) = scannableEntries entries.
Proof. reflexivity. Qed.

(** [parseWorkflow] on a file that can be read: it completes normally, the
    provider is left as it is, and a warning is shown exactly when the
    decoder throws. *)
Lemma parseWorkflow_read (filePath raw : jsstring) (s : Provider) :
  parseFile filePath (inr raw) s =
  mkReply (Normal (recordOf filePath (dataAt filePath raw))) s
    (match decodedAt filePath raw with
     | inr _ => []
     | inl e => [parseWarning filePath e]
     end).
Proof.
  unfold parseWorkflow, dataOf, decoded, decode, parseWarning, recordOf.
  cbn [bind await ret completion state trace app].
  destruct (eqb (toLowerCase (extname filePath)) (u ".json")).
  - destruct (JSON_parse raw); reflexivity.
  - unfold tryCatch. cbn [bind await ret completion state trace app].
    destruct (yaml_load raw); reflexivity.
Qed.


Lemma recordOf_empty (filePath : jsstring) :
  recordOf filePath (Js.Object []) = fallbackRecord filePath.
Proof. reflexivity. Qed.

Lemma scannedAs_read (s : Provider) (p raw : jsstring) :
  scannedAs s (p, inr raw)
    (recordOf p (dataAt p raw),
     match decodedAt p raw with
     | inr _ => []
     | inl e => [parseWarning p e]
     end).
Proof.
  split; [apply parseWorkflow_read | split; [reflexivity|]].
  cbn [fst snd]. intros raw' e [= <-] He. unfold dataOf. now rewrite He.
Qed.

Lemma collectEntries_scan (entries : list (jsstring * fsnode)) :
  Forall (fun ne => forall dir, scanCompletes dir (snd ne)) entries ->
  forall dir results s,
    scannableEntries entries = true ->
    exists outcomes,
      Forall2 (scannedAs s) (acceptedEntries dir entries) outcomes
      /\ collectLoop dir entries results s
         = mkReply (Normal (results ++ map fst outcomes)) s
             (concat (map snd outcomes)).
Proof.
  induction 1 as [|[name entry] rest Hentry _ IH]; intros dir results s Hscan.
  - exists []. split; [constructor|]. cbn. now rewrite app_nil_r.
  - cbn [snd] in Hentry.
    assert (Hdir : isDirectory entry = true ->
              scannable entry = true /\ scannableEntries rest = true).
    { destruct entry; [discriminate | |]; intros _;
        now apply andb_true_iff in Hscan. }
    destruct entry as [[e|raw] | sub | err].
    + (* a file that cannot be read: not accepted *)
      apply andb_true_iff in Hscan as [Hname Hrest].
      apply negb_true_iff in Hname.
      destruct (IH dir results s Hrest) as (os & HF & Heq).
      exists os. cbn [collectEntries acceptedEntries isDirectory].
      rewrite Hname. cbn [negb]. now split.
    + cbn [collectEntries acceptedEntries isDirectory].
      destruct (isWorkflowFile name); cbn [negb].
      * set (p := join dir name).
        set (o := (recordOf p (dataAt p raw),
                   match decodedAt p raw with
                   | inr _ => []
                   | inl e => [parseWarning p e]
                   end)).
        destruct (IH dir (results ++ [fst o]) s Hscan) as (os & HF & Heq).
        exists (o :: os). split.
        -- constructor; [apply scannedAs_read | exact HF].
        -- rewrite (bind_normal _ _ _ _ _ _ (parseWorkflow_read p raw s)).
           fold p o. change (recordOf p (dataAt p raw)) with (fst o).
           rewrite Heq. cbn [completion state trace map concat].
           now rewrite <- app_assoc.
      * destruct (IH dir results s Hscan) as (os & HF & Heq).
        exists os. now split.
    + destruct (Hdir eq_refl) as [Hsub Hrest].
      destruct (Hentry (join dir name) s Hsub) as (os1 & HF1 & Heq1).
      destruct (IH dir (results ++ map fst os1) s Hrest) as (os2 & HF2 & Heq2).
      exists (os1 ++ os2). split.
      * cbn [acceptedEntries]. now apply Forall2_app.
      * cbn [collectEntries isDirectory].
        rewrite (bind_normal _ _ _ _ _ _ Heq1), Heq2.
        cbn [completion state trace].
        now rewrite !map_app, concat_app, app_assoc.
    + destruct (Hdir eq_refl) as [Hsub _]. discriminate.
Qed.

Lemma collectWorkflows_scan (dir : jsstring) (node : fsnode) :
  scanCompletes dir node.
Proof.
  revert dir. induction node as [contents | entries IH | err]
    using fsnode_entries_ind; intros dir s Hscan; try discriminate.
  rewrite collectWorkflows_Dir, acceptedFiles_Dir.
  rewrite scannable_Dir in Hscan.
  destruct (collectEntries_scan entries IH dir [] s Hscan) as (os & HF & Heq).
  exists os. now split.
Qed.


(** *** The scan does not touch the provider *)

Lemma parseWorkflow_stateFree (p : jsstring) (file : exn + jsstring) :
  stateFree (parseFile p file).
Proof.
  unfold parseWorkflow.
  apply stateFree_bind; [apply stateFree_await | intros raw].
  apply stateFree_bind; [| intros data; apply stateFree_ret].
  apply stateFree_tryCatch.
  - unfold decode. destruct (eqb _ _); [apply stateFree_await|].
    apply stateFree_bind; [apply stateFree_await | intros v].
    apply stateFree_ret.
  - intros e. apply stateFree_bind; [apply stateFree_emit | intros _].
    apply stateFree_ret.
Qed.

Lemma collectEntries_stateFree (entries : list (jsstring * fsnode)) :
  Forall (fun ne => forall dir, stateFree (collect dir (snd ne))) entries ->
  forall dir results, stateFree (collectLoop dir entries results).
Proof.
  induction 1 as [|[name entry] rest Hentry _ IH]; intros dir results.
  - apply stateFree_ret.
  - cbn [collectEntries]. destruct (isDirectory entry).
    + apply stateFree_bind; [apply Hentry | intros sub; apply IH].
    + destruct (negb (isWorkflowFile name)); [apply IH|].
      apply stateFree_bind; [apply parseWorkflow_stateFree|].
      intros parsed. apply IH.
Qed.

Lemma collectWorkflows_stateFree (dir : jsstring) (node : fsnode) :
  stateFree (collect dir node).
Proof.
  revert dir. induction node as [contents | entries IH | err]
    using fsnode_entries_ind; intros dir.
  - apply stateFree_throw.
  - rewrite collectWorkflows_Dir. now apply collectEntries_stateFree.
  - apply stateFree_throw.
Qed.

(** *** Scans that throw *)

Lemma completion_bind_throw {A B} (m : M A) (f : A -> M B) (s : Provider)
    (e : exn) :
  completion (m s) = Throw e -> completion (bind m f s) = Throw e.
Proof. intros H. unfold bind. now rewrite H. Qed.

Lemma collectEntries_throws (entries : list (jsstring * fsnode)) :
  Forall (fun ne => forall dir, scanThrows dir (snd ne)) entries ->
  forall dir results s,
    scannableEntries entries = false ->
    exists e, completion (collectLoop dir entries results s) = Throw e.
Proof.
  induction 1 as [|[name entry] rest Hentry _ IH]; intros dir results s Hscan.
  - discriminate.
  - cbn [snd] in Hentry. destruct entry as [[e|raw] | sub | err].
    + cbn [scannableEntries] in Hscan.
      cbn [collectEntries isDirectory].
      destruct (isWorkflowFile name); cbn [negb andb] in *.
      * exists e. now apply completion_bind_throw.
      * now apply IH.
    + cbn [scannableEntries] in Hscan.
      cbn [collectEntries isDirectory].
      destruct (isWorkflowFile name); cbn [negb].
      * rewrite (bind_normal _ _ _ _ _ _
                   (parseWorkflow_read (join dir name) raw s)).
        cbn [completion]. now apply IH.
      * now apply IH.
    + cbn [scannableEntries] in Hscan.
      cbn [collectEntries isDirectory].
      destruct (scannable (Dir sub)) eqn:Esub.
      * destruct (collectWorkflows_scan (join dir name) (Dir sub) s Esub)
          as (os & _ & Heq).
        rewrite (bind_normal _ _ _ _ _ _ Heq). cbn [completion].
        now apply IH.
      * destruct (Hentry (join dir name) s Esub) as (e & He).
        exists e. now apply completion_bind_throw.
    + exists err. reflexivity.
Qed.

Lemma collectWorkflows_throws (dir : jsstring) (node : fsnode) :
  scanThrows dir node.
Proof.
  revert dir. induction node as [contents | entries IH | err]
    using fsnode_entries_ind; intros dir s Hscan.
  - now exists (scandirError dir).
  - rewrite collectWorkflows_Dir. rewrite scannable_Dir in Hscan.
    now apply collectEntries_throws.
  - now exists err.
Qed.

(** *** Roots *)

Lemma pathExists_run (env : Env) (p : jsstring) (s : Provider) :
  pathExists env p s
  = mkReply (Normal (match fs env p with Some _ => true | None => false end))
      s [].
Proof. unfold pathExists, tryCatch. destruct (fs env p); reflexivity. Qed.

Lemma disposeAll_run (ws : list Watcher) (s : Provider) :
  disposeAll ws s = mkReply (Normal tt) s (map DisposeWatcher ws).
Proof.
  induction ws as [|w ws IH]; [reflexivity|].
  cbn [disposeAll map]. unfold bind at 1. cbn [emit completion state trace].
  now rewrite IH.
Qed.

(** A root without the designated subdirectory is passed over. *)
Lemma loadFolders_absent (env : Env) (folder : jsstring)
    (rest : list jsstring) (found : list WorkflowDefinition) (s : Provider) :
  fs env (join folder WINDSURF_DIR) = None ->
  loadRoots env (folder :: rest) found s = loadRoots env rest found s.
Proof.
  intros H. cbn [loadFolders].
  rewrite (bind_normal _ _ _ _ _ _ (pathExists_run env _ s)), H.
  cbn [negb app]. apply reply_eta.
Qed.

(** A root with the designated subdirectory: its records are appended and
    its watcher is registered, unless the scan of the subdirectory throws. *)
Lemma loadFolders_present (env : Env) (folder : jsstring)
    (rest : list jsstring) (found : list WorkflowDefinition) (s : Provider)
    (node : fsnode) (c : Completion (list WorkflowDefinition))
    (t : list Event) :
  fs env (join folder WINDSURF_DIR) = Some node ->
  (forall s', collect (join folder WINDSURF_DIR) node s' = mkReply c s' t) ->
  loadRoots env (folder :: rest) found s =
  match c with
  | Normal sub =>
      let r := loadRoots env rest (found ++ sub)
                 (mkProvider (workflows s)
                    (watchers s ++ [mkWatcher folder WATCH_PATTERN])) in
      mkReply (completion r) (state r) (t ++ trace r)
  | Throw e => mkReply (Throw e) s t
  end.
Proof.
  intros H Hc. cbn [loadFolders].
  rewrite (bind_normal _ _ _ _ _ _ (pathExists_run env _ s)), H.
  cbn [negb app]. rewrite reply_eta.
  destruct c as [sub|e].
  - rewrite (bind_normal _ _ _ _ _ _ (Hc s)).
    now rewrite bind_get, bind_put.
  - now rewrite (bind_throw _ _ _ _ _ _ (Hc s)).
Qed.

(** The outcome of the roots loop does not depend on the provider, and the
    loop leaves the current list alone. *)
Lemma loadFolders_provider (env : Env) (folders : list jsstring) :
  forall found s s',
    completion (loadRoots env folders found s)
    = completion (loadRoots env folders found s')
    /\ workflows (state (loadRoots env folders found s)) = workflows s.
Proof.
  induction folders as [|folder rest IH]; intros found s s'.
  - now split.
  - destruct (fs env (join folder WINDSURF_DIR)) as [node|] eqn:E.
    + destruct (collectWorkflows_stateFree (join folder WINDSURF_DIR) node)
        as (c & t & Hc).
      rewrite !(loadFolders_present env folder rest found _ node c t E Hc).
      destruct c as [sub|e]; [|now split].
      cbn [completion state].
      split; [apply IH|]. now rewrite (proj2 (IH _ _ s)).
    + rewrite !(loadFolders_absent env folder rest found _ E). apply IH.
Qed.

(** [loadWorkflows] in one step: the watchers are disposed, the roots are
    scanned, and only a scan that completes replaces the list. *)
Lemma loadWorkflows_run (env : Env) (s : Provider) :
  let folders := match workspaceFolders env with Some l => l | None => [] end in
  let r := loadRoots env folders [] (mkProvider (workflows s) []) in
  load env s =
  match completion r with
  | Normal found =>
      mkReply (Normal tt)
        (mkProvider (sort byLabel found) (watchers (state r)))
        (map DisposeWatcher (watchers s) ++ trace r)
  | Throw e =>
      mkReply (Throw e) (state r) (map DisposeWatcher (watchers s) ++ trace r)
  end.
Proof.
  intros folders r. unfold loadWorkflows.
  rewrite bind_get, (bind_normal _ _ _ _ _ _ (disposeAll_run _ s)), bind_put.
  fold folders. fold r.
  destruct r as [[found|e] s1 t1] eqn:Er; cbn [completion state trace].
  - rewrite (bind_normal _ _ _ _ _ _ Er), bind_get.
    unfold put. cbn [completion state trace]. now rewrite app_nil_r.
  - now rewrite (bind_throw _ _ _ _ _ _ Er).
Qed.

(** *** The comparator *)

Lemma compareLabels_total (a b : WorkflowDefinition) :
  ~ notAfter byLabel a b -> notAfter byLabel b a.
Proof.
  unfold notAfter, compareLabels, localeCompare.
  rewrite (keyCompare_opp (collationKey (label a)) (collationKey (label b))).
  destruct (keyCompare _ _); simpl; lia.
Qed.

Lemma compareLabels_trans (a b c : WorkflowDefinition) :
  notAfter byLabel a b -> notAfter byLabel b c -> notAfter byLabel a c.
Proof.
  unfold notAfter, compareLabels, localeCompare. intros Hab Hbc.
  pose proof (keyCompare_le_trans (collationKey (label a))
                (collationKey (label b)) (collationKey (label c))) as H.
  destruct (keyCompare (collationKey (label a)) (collationKey (label b)));
    destruct (keyCompare (collationKey (label b)) (collationKey (label c)));
    destruct (keyCompare (collationKey (label a)) (collationKey (label c)));
    try lia; exfalso; apply H; congruence.
Qed.


(** *** Fields of a record *)

Lemma stringOrUndefined_spec (v : Js.value) :
  (forall str, v = Js.Str str -> Js.stringOrUndefined v = Some str)
  /\ ((forall str, v <> Js.Str str) -> Js.stringOrUndefined v = None).
Proof.
  split.
  - now intros str ->.
  - intros H. destruct v; try reflexivity. now elim (H s).
Qed.




(** C10. The description is the decoded string as it is: it is not trimmed,
    and an empty or white-space-only string is kept. *)
Theorem description_kept_verbatim (p raw d : jsstring) (s : Provider) :
  Js.getProp (dataAt p raw) (u "description") = Js.Str d ->
  exists wf log,
    parseFile p (inr raw) s = mkReply (Normal wf) s log
    /\ description wf = Some d.
Proof.
  intros H. eexists. eexists. split; [apply parseWorkflow_read|].
  unfold recordOf. cbn [description]. now rewrite H.
Qed.

(** The scan of one tree that can be read: one record for each accepted
    file, in order; these trees are the ones whose scan completes. *)
Lemma collectWorkflows_one_record_per_file
    (dir : jsstring) (node : fsnode) (s : Provider) :
  (scannable node = true ->
   exists outcomes,
     Forall2 (scannedAs s) (acceptedFiles dir node) outcomes
     /\ collect dir node s
        = mkReply (Normal (map fst outcomes)) s (concat (map snd outcomes)))
  /\ ((exists records, completion (collect dir node s) = Normal records)
      <-> scannable node = true).
Proof.
  split; [exact (collectWorkflows_scan dir node s)|]. split.
  - intros (records & Hc). destruct (scannable node) eqn:E; [reflexivity|].
    destruct (collectWorkflows_throws dir node s E) as (e & He). congruence.
  - intros H. destruct (collectWorkflows_scan dir node s H) as (os & _ & Heq).
    exists (map fst os). now rewrite Heq.
Qed.

(** [parseWorkflow] on a file that was read, by the outcome of the decoder
    it chooses. *)
Lemma parseWorkflow_parsedWith (p raw : jsstring) (s : Provider) :
  parseFile p (inr raw) s
  = parsedWith
      (if eqb (toLowerCase (extname p)) (u ".json") then JSON_parse raw
       else yamlOf raw) p s.
Proof.
  rewrite parseWorkflow_read. unfold dataOf, decoded, yamlOutcome, parsedWith.
  destruct (eqb (toLowerCase (extname p)) (u ".json")).
  - destruct (JSON_parse raw); reflexivity.
  - destruct (yaml_load raw); reflexivity.
Qed.

(** C9. The filter looks at the end of the file name, the choice of decoder
    in [parseWorkflow] at the lower-cased [path.extname] of the full path.
    A name is accepted exactly when it ends, letter case apart, with
    [.workflow], [.yaml], [.yml] or [.json] ([Build.YAML] and [x.Json] are,
    [notes.txt] is not). [parseWorkflow] gives a file to [JSON.parse]
    exactly when the lower-cased [extname] is [.json]: so [a.json] and
    [B.JSON], but not the dot file [.json], which is accepted, has an empty
    [extname] and is given to [yaml.load]. *)
Theorem filter_and_decoder_extensions :
  (forall name,
     isWorkflowFile name = true <->
     exists stem ext,
       name = stem ++ ext
       /\ In (map asciiLower ext)
             [u ".workflow"; u ".yaml"; u ".yml"; u ".json"])
  /\ isWorkflowFile (u ".json") = true
  /\ isWorkflowFile (u "Build.YAML") = true
  /\ isWorkflowFile (u "x.Json") = true
  /\ isWorkflowFile (u "run.WorkFlow") = true
  /\ isWorkflowFile (u "notes.txt") = false
  /\ (forall dir, extname (join dir (u ".json")) = [])
  /\ (forall p raw s,
        parseFile p (inr raw) s
        = parsedWith
            (if eqb (toLowerCase (extname p)) (u ".json") then JSON_parse raw
             else yamlOf raw) p s)
  /\ (forall dir raw s,
        parseFile (join dir (u ".json")) (inr raw) s
        = parsedWith (yamlOf raw) (join dir (u ".json")) s)
  /\ (forall dir raw s,
        parseFile (join dir (u "a.json")) (inr raw) s
        = parsedWith (JSON_parse raw) (join dir (u "a.json")) s)
  /\ (forall dir raw s,
        parseFile (join dir (u "B.JSON")) (inr raw) s
        = parsedWith (JSON_parse raw) (join dir (u "B.JSON")) s)
  /\ (forall dir raw s,
        parseFile (join dir (u "B.YML")) (inr raw) s
        = parsedWith (yamlOf raw) (join dir (u "B.YML")) s).
Proof.
  split; [|repeat (split; [reflexivity|])].
  - intros name. unfold isWorkflowFile.
    rewrite !orb_true_iff, !endsWithIgnoreCase_spec. split.
    + intros [[[H|H]|H]|H]; destruct H as (stem & ext & Hn & He);
        exists stem, ext; (split; [exact Hn|]); rewrite He; simpl; tauto.
    + intros (stem & ext & Hn & [H|[H|[H|[H|[]]]]]).
      * left. left. left. now exists stem, ext.
      * left. left. right. now exists stem, ext.
      * left. right. now exists stem, ext.
      * right. now exists stem, ext.
  - split; [intros dir; now rewrite extname_join|].
    split; [exact parseWorkflow_parsedWith|].
    repeat split; intros dir raw s; rewrite parseWorkflow_parsedWith;
      now rewrite extname_join.
Qed.

(** *** Scans of the workspace *)




(** C3. After a scan that completes, the list of the provider is the
    records found, put in ascending order of their labels under
    [localeCompare]. *)
Theorem scan_sorts_by_label (env : Env) (s : Provider) :
  completion (load env s) = Normal tt ->
  StronglySorted
    (fun a b => (localeCompare collationKey (label a) (label b) <= 0)%Z)
    (workflows (state (load env s)))
  /\ exists found,
       completion
         (loadRoots env
            (match workspaceFolders env with Some l => l | None => [] end)
            [] (mkProvider (workflows s) []))
       = Normal found
       /\ Permutation found (workflows (state (load env s))).
Proof.
  rewrite loadWorkflows_run. cbv zeta.
  destruct (completion (loadRoots env _ [] _)) as [found|e];
    cbn [completion state workflows]; [intros _ | discriminate].
  split.
  - exact (sort_sorted WorkflowDefinition byLabel compareLabels_total
             compareLabels_trans found).
  - exists found. split; [reflexivity | apply sort_perm].
Qed.

(** C6. Scanning again with the same file system and the same roots gives
    the same list of records and the same completion. *)
Theorem rescan_idempotent (env : Env) (s : Provider) :
  workflows (state (load env (state (load env s))))
  = workflows (state (load env s))
  /\ completion (load env (state (load env s))) = completion (load env s).
Proof.
  pose proof (loadWorkflows_run env s) as H1. cbv zeta in H1.
  set (folders := match workspaceFolders env with Some l => l | None => [] end)
    in *.
  set (R1 := loadRoots env folders [] (mkProvider (workflows s) [])) in *.
  destruct (completion R1) as [found|e] eqn:Ec; rewrite H1;
    cbn [state workflows completion];
    rewrite loadWorkflows_run; cbv zeta; fold folders; cbn [workflows].
  - destruct (loadFolders_provider env folders []
                (mkProvider (sort byLabel found) [])
                (mkProvider (workflows s) [])) as [Hc _].
    rewrite Hc. fold R1. rewrite Ec. now split.
  - destruct (loadFolders_provider env folders []
                (mkProvider (workflows (state R1)) [])
                (mkProvider (workflows s) [])) as [Hc Hw].
    rewrite Hc. fold R1. rewrite Ec. cbn [state completion].
    split; [exact Hw | reflexivity].
Qed.

Lemma loadFolders_completes (env : Env) (folders : list jsstring) :
  (forall folder node,
     In folder folders -> fs env (join folder WINDSURF_DIR) = Some node ->
     scannable node = true) ->
  forall found s,
    exists all, completion (loadRoots env folders found s) = Normal all.
Proof.
  induction folders as [|folder rest IH]; intros Hok found s.
  - now exists found.
  - assert (Hrest : forall f node,
              In f rest -> fs env (join f WINDSURF_DIR) = Some node ->
              scannable node = true).
    { intros f node Hin. apply Hok. now right. }
    destruct (fs env (join folder WINDSURF_DIR)) as [node|] eqn:E.
    + destruct (collectWorkflows_stateFree (join folder WINDSURF_DIR) node)
        as (c & t & Hc).
      destruct (collectWorkflows_scan (join folder WINDSURF_DIR) node s
                  (Hok folder node (or_introl eq_refl) E)) as (os & _ & Heq).
      rewrite Hc in Heq. injection Heq as -> _.
      rewrite (loadFolders_present env folder rest found s node _ t E Hc).
      cbn [completion]. apply (IH Hrest).
    + rewrite (loadFolders_absent env folder rest found s E).
      apply (IH Hrest).
Qed.




(** C2, as the code has it. For a file that was read, [parseWorkflow] does
    not throw: when the decoder throws, the file is taken as an empty
    definition (the record has the base name as label and no other field)
    and one warning is shown. A scan in which every directory can be listed
    and every accepted file can be read completes. *)
Theorem decoding_failure_gives_degraded_record :
  (forall p raw s,
     exists wf log,
       parseFile p (inr raw) s = mkReply (Normal wf) s log
       /\ forall e,
            decodedAt p raw = inl e ->
            wf = fallbackRecord p /\ log = [parseWarning p e])
  /\ (forall env s,
        (forall folder node,
           In folder (match workspaceFolders env with
                      | Some l => l
                      | None => []
                      end) ->
           fs env (join folder WINDSURF_DIR) = Some node ->
           scannable node = true) ->
        completion (load env s) = Normal tt).
Proof.
  split.
  - intros p raw s. eexists. eexists. split; [apply parseWorkflow_read|].
    intros e He. unfold dataOf. rewrite He. now split.
  - intros env s Hok. rewrite loadWorkflows_run. cbv zeta.
    destruct (loadFolders_completes env _ Hok [] (mkProvider (workflows s) []))
      as (all & ->).
    reflexivity.
Qed.

(** *** Launching *)

(** C5. Launching a record creates a terminal whose working directory is
    [path.dirname] of the record's path and sends it the record's command
    when there is one, and otherwise [windsurf run] followed by the path
    between double quotes; this is so for a record given by its tree item
    and for one chosen in the quick pick. For the path of a scanned entry
    that directory is the path without its last separator and the entry's
    name (the root or [.] when nothing else precedes the name). *)
Theorem launch_command_and_directory (wf : WorkflowDefinition) (s : Provider) :
  let commandLine :=
    match command wf with
    | Some c => c
    | None => u "windsurf run " ++ [QUOTE] ++ filePath wf ++ [QUOTE]
    end in
  let launched :=
    [ CreateTerminal (u "Windsurf: " ++ label wf) (dirname (filePath wf));
      TerminalShow true;
      TerminalSendText commandLine true ] in
  let items :=
    map (fun w => mkPick (label w) (description w) w) (workflows s) in
  executeWorkflow wf s = mkReply (Normal tt) s launched
  /\ (forall item,
        hasWorkflow item = Some wf ->
        run item s = mkReply (Normal tt) s launched)
  /\ (forall item picked,
        hasWorkflow item = None -> workflows s <> [] ->
        showQuickPick items = Some picked -> pickWorkflow picked = wf ->
        run item s
        = mkReply (Normal tt) s (ShowQuickPick items PLACEHOLDER :: launched))
  /\ (forall dir name,
        isEntryName name = true -> filePath wf = join dir name ->
        (filePath wf = name /\ dirname (filePath wf) = [DOT])
        \/ (filePath wf = SLASH :: name /\ dirname (filePath wf) = [SLASH])
        \/ filePath wf = dirname (filePath wf) ++ SLASH :: name).
Proof.
  intros commandLine launched items.
  assert (Hexec : executeWorkflow wf s = mkReply (Normal tt) s launched)
    by reflexivity.
  split; [exact Hexec | split; [|split]];
    [| | intros dir name He ->; now apply dirname_join].
  - intros item Hitem. unfold runWorkflow. now rewrite Hitem.
  - intros item picked Hitem Hne Hpick <-. unfold runWorkflow.
    rewrite Hitem, bind_get.
    destruct (workflows s) as [|w ws] eqn:E; [congruence|].
    cbn [length Nat.eqb]. rewrite bind_emit.
    fold items in Hpick |- *. rewrite <- E in *. fold items.
    now rewrite Hpick.
Qed.

(** C7. A launch without a record shows the information message and does
    nothing else when the list is empty; when the list is not empty and the
    user dismisses the quick pick, nothing is shown and no terminal is
    created. *)
Theorem launch_without_record (item : option WorkflowTreeItem) (s : Provider) :
  hasWorkflow item = None ->
  (workflows s = [] ->
   run item s = mkReply (Normal tt) s [ShowInformationMessage NO_WORKFLOWS])
  /\ (workflows s <> [] ->
      showQuickPick
        (map (fun w => mkPick (label w) (description w) w) (workflows s))
      = None ->
      run item s
      = mkReply (Normal tt) s
          [ShowQuickPick
             (map (fun w => mkPick (label w) (description w) w) (workflows s))
             PLACEHOLDER]).
Proof.
  intros Hitem. unfold runWorkflow. rewrite Hitem, bind_get. split.
  - intros ->. reflexivity.
  - intros Hne Hpick. destruct (workflows s) as [|w ws] eqn:E; [congruence|].
    cbn [length Nat.eqb]. rewrite bind_emit. now rewrite Hpick.
Qed.

End RegistryProperties.

(** ** Instances *)


Lemma description_kept_verbatim_witness :
  exists wf log,
    parseWorkflow sampleJSON sampleYAML (u "/proj/.windsurf/d.yaml")
      (inr (u "description: '  '")) emptyProvider
    = mkReply (Normal wf) emptyProvider log
    /\ description wf = Some (u "  ").
Proof.
  apply (description_kept_verbatim sampleJSON sampleYAML
           (u "/proj/.windsurf/d.yaml") (u "description: '  '") (u "  ")
           emptyProvider).
  reflexivity.
Defined.

Lemma scan_sorts_by_label_witness :
  completion (loadWorkflows sampleJSON sampleYAML sampleKey sampleEnv
                emptyProvider) = Normal tt
  /\ map label
       (workflows
          (state (loadWorkflows sampleJSON sampleYAML sampleKey sampleEnv
                    emptyProvider)))
     = [u ".json"; u "Build"; u "b.json"; u "bad.yml"]
  /\ StronglySorted
       (fun a b => (localeCompare sampleKey (label a) (label b) <= 0)%Z)
       (workflows
          (state (loadWorkflows sampleJSON sampleYAML sampleKey sampleEnv
                    emptyProvider))).
Proof.
  split; [reflexivity | split; [reflexivity|]].
  apply (scan_sorts_by_label sampleJSON sampleYAML sampleKey sampleEnv
           emptyProvider).
  reflexivity.
Defined.


Lemma launch_without_record_witness :
  runWorkflow dismiss None emptyProvider
  = mkReply (Normal tt) emptyProvider [ShowInformationMessage NO_WORKFLOWS]
  /\ runWorkflow dismiss None oneRecord
     = mkReply (Normal tt) oneRecord
         [ShowQuickPick [mkPick (u "Echo") None echoRecord] PLACEHOLDER].
Proof.
  split.
  - apply (proj1 (launch_without_record dismiss None emptyProvider eq_refl)).
    reflexivity.
  - apply (proj2 (launch_without_record dismiss None oneRecord eq_refl)).
    + discriminate.
    + reflexivity.
Defined.

Lemma launch_command_and_directory_witness :
  runWorkflow dismiss (Some (mkItem (u "Echo") None (Some echoRecord)))
    oneRecord
  = mkReply (Normal tt) oneRecord
      [ CreateTerminal (u "Windsurf: Echo") (u "/proj/.windsurf");
        TerminalShow true;
        TerminalSendText (u "echo hi") true ].
Proof.
  apply (proj1 (proj2 (launch_command_and_directory dismiss echoRecord
                         oneRecord))).
  reflexivity.
Defined.

Lemma decoding_failure_gives_degraded_record_witness :
  parseWorkflow sampleJSON sampleYAML (u "/proj/.windsurf/sub/bad.yml")
    (inr (u "name: [")) emptyProvider
  = mkReply (Normal (fallbackRecord (u "/proj/.windsurf/sub/bad.yml")))
      emptyProvider
      [ parseWarning (u "/proj/.windsurf/sub/bad.yml")
          (u "YAMLException: bad indentation of a mapping entry") ].
Proof.
  destruct (proj1 (decoding_failure_gives_degraded_record
                     sampleJSON sampleYAML sampleKey)
              (u "/proj/.windsurf/sub/bad.yml") (u "name: [") emptyProvider)
    as (wf & log & Hrun & Hfail).
  destruct (Hfail _ eq_refl) as [-> ->]. exact Hrun.
Defined.




(** ** What a file that cannot be read does *)

(** C2, as stated, fails. [/proj/.windsurf] lists [a.yaml], which cannot be
    read, and [b.yaml]. [parseWorkflow] throws for [a.yaml]; the scan
    throws with it, shows nothing and makes no record, neither for
    [a.yaml] nor for [b.yaml]. *)
Lemma unreadable_file_aborts_scan :
  acceptedFiles (u "/proj/.windsurf") unreadableTree
  = [ (u "/proj/.windsurf/a.yaml", inl EACCES);
      (u "/proj/.windsurf/b.yaml", inr (u "name: Build")) ]
  /\ parseWorkflow sampleJSON sampleYAML (u "/proj/.windsurf/a.yaml")
       (inl EACCES) emptyProvider
     = mkReply (Throw EACCES) emptyProvider []
  /\ loadWorkflows sampleJSON sampleYAML sampleKey unreadableEnv emptyProvider
     = mkReply (Throw EACCES) emptyProvider []
  /\ ~ (exists records,
          completion
            (loadWorkflows sampleJSON sampleYAML sampleKey unreadableEnv
               emptyProvider)
          = Normal tt
          /\ workflows
               (state
                  (loadWorkflows sampleJSON sampleYAML sampleKey unreadableEnv
                     emptyProvider))
             = records
          /\ In (fallbackRecord (u "/proj/.windsurf/a.yaml")) records).
Proof.
  split; [reflexivity | split; [reflexivity | split; [reflexivity|]]].
  intros (records & Hc & _). discriminate Hc.
Qed.

(** ** Examples *)

(** A record with [command: echo hi] is launched as [echo hi] in the
    directory of its file. *)
Example launch_echo :
  executeWorkflow echoRecord emptyProvider
  = mkReply (Normal tt) emptyProvider
      [ CreateTerminal (u "Windsurf: Echo") (u "/proj/.windsurf");
        TerminalShow true;
        TerminalSendText (u "echo hi") true ].
Proof. reflexivity. Qed.

(** A record without command is launched with the default command. *)
Example launch_default :
  trace (executeWorkflow (fallbackRecord (u "/proj/.windsurf/b.json"))
           emptyProvider)
  = [ CreateTerminal (u "Windsurf: b.json") (u "/proj/.windsurf");
      TerminalShow true;
      TerminalSendText
        (u "windsurf run " ++ [QUOTE] ++ u "/proj/.windsurf/b.json" ++ [QUOTE])
        true ].
Proof. reflexivity. Qed.

(** The scan of the sample workspace: four records in the order of their
    labels, one warning for the file that does not decode; the dot file
    [.json] is read as YAML. *)
Example sample_scan :
  loadWorkflows sampleJSON sampleYAML sampleKey sampleEnv emptyProvider
  = mkReply (Normal tt)
      (mkProvider
         [ mkWorkflow (u ".json") None (u "/proj/.windsurf/.json")
             (Some (u "echo hi"));
           mkWorkflow (u "Build") None (u "/proj/.windsurf/sub/a.yaml") None;
           mkWorkflow (u "b.json") None (u "/proj/.windsurf/b.json") None;
           mkWorkflow (u "bad.yml") None (u "/proj/.windsurf/sub/bad.yml")
             None ]
         [mkWatcher (u "/proj") WATCH_PATTERN])
      [ parseWarning (u "/proj/.windsurf/sub/bad.yml")
          (u "YAMLException: bad indentation of a mapping entry") ].
Proof. reflexivity. Qed.

(* ================================================================== *)
(** * Further properties of the provider *)

(** ** Trimming and extensions *)

Lemma trimStart_split (str : jsstring) :
  exists l, str = l ++ trimStart str /\ forallb isWhiteSpace l = true.
Proof.
  induction str as [|c str (l & Hl & Hws)]; [now exists []|].
  cbn [trimStart]. destruct (isWhiteSpace c) eqn:E.
  - exists (c :: l). split; [cbn; now rewrite <- Hl | cbn; now rewrite E].
  - now exists [].
Qed.

Lemma forallb_rev_true {A} (f : A -> bool) (l : list A) :
  forallb f l = true -> forallb f (rev l) = true.
Proof.
  rewrite !forallb_forall. intros H x Hx. apply H. now apply in_rev.
Qed.

(** [trim]: the string without the white space at its two ends. *)
Lemma trim_spec (str : jsstring) :
  (exists l r,
     str = l ++ trim str ++ r
     /\ forallb isWhiteSpace l = true /\ forallb isWhiteSpace r = true)
  /\ (forall c t, trim str = c :: t -> isWhiteSpace c = false)
  /\ (trim str <> [] -> isWhiteSpace (last (trim str) 0%N) = false).
Proof.
  unfold trim, trimEnd.
  destruct (trimStart_split str) as (l & Hl & Hlws).
  destruct (trimStart_split (rev (trimStart str))) as (r & Hr & Hrws).
  assert (Hmid : trimStart str
                 = rev (trimStart (rev (trimStart str))) ++ rev r).
  { rewrite <- rev_app_distr, <- Hr. symmetry. apply rev_involutive. }
  split; [|split].
  - exists l, (rev r). split; [|split].
    + now rewrite <- Hmid.
    + exact Hlws.
    + now apply forallb_rev_true.
  - intros c t H. rewrite H in Hmid.
    pose proof (trimStart_head str) as Hh. rewrite Hmid in Hh. exact Hh.
  - intros Hne. pose proof (trimStart_head (rev (trimStart str))) as Hh.
    destruct (trimStart (rev (trimStart str))) as [|c z]; [now elim Hne|].
    cbn [rev]. now rewrite last_last.
Qed.

Lemma takeWhile_dropWhile (f : N -> bool) (l : jsstring) :
  takeWhile f l ++ dropWhile f l = l.
Proof.
  induction l as [|c l IH]; [reflexivity|]. cbn.
  destruct (f c); [cbn; now rewrite IH | reflexivity].
Qed.

Lemma dropWhile_head (f : N -> bool) (l : jsstring) (c : N) (r : jsstring) :
  dropWhile f l = c :: r -> f c = false.
Proof.
  induction l as [|x l IH]; cbn; [discriminate|].
  destruct (f x) eqn:E; [exact IH|]. now intros [= <- _].
Qed.

(** A non-empty extension is the end of the base name, after a stem that
    is not empty. *)
Lemma extname_inv (p e : jsstring) :
  extname p = e -> e <> [] ->
  exists stem, stem <> [] /\ basename p = stem ++ e.
Proof.
  unfold extname. intros H Hne.
  remember (rev (basename p)) as r eqn:Er.
  assert (Hb : basename p = rev r).
  { rewrite Er. symmetry. apply rev_involutive. }
  pose proof (takeWhile_dropWhile notDot r) as Hsplit.
  destruct (dropWhile notDot r) as [|d before] eqn:Ed; [congruence|].
  apply dropWhile_head in Ed. unfold notDot in Ed.
  apply negb_false_iff, N.eqb_eq in Ed. subst d.
  destruct before as [|b0 bs]; [congruence|].
  destruct (eqb (takeWhile notDot r) [] && eqb (b0 :: bs) [DOT]);
    [congruence|].
  exists (rev (b0 :: bs)). split.
  - intros E. apply (f_equal (@rev N)) in E. rewrite rev_involutive in E.
    discriminate.
  - rewrite Hb.
    transitivity (rev (takeWhile notDot r ++ DOT :: b0 :: bs));
      [now rewrite Hsplit|].
    rewrite rev_app_distr, <- H.
    change (rev (DOT :: b0 :: bs)) with (rev (b0 :: bs) ++ [DOT]).
    now rewrite <- app_assoc.
Qed.

(** The extension of a base name that ends with a dot and letters after a
    stem that is not empty. *)
Lemma extname_suffix (p stem tl : jsstring) :
  basename p = stem ++ DOT :: tl ->
  stem <> [] -> tl <> [] -> forallb notDot tl = true ->
  extname p = DOT :: tl.
Proof.
  intros Hb Hstem Htl Hdots. unfold extname. rewrite Hb.
  assert (Hrev : rev (stem ++ DOT :: tl) = rev tl ++ DOT :: rev stem).
  { rewrite rev_app_distr. cbn [rev]. now rewrite <- app_assoc. }
  rewrite Hrev.
  rewrite dropWhile_app_stop;
    [| now apply forallb_rev_true | reflexivity].
  rewrite takeWhile_app_stop;
    [| now apply forallb_rev_true | reflexivity].
  destruct (rev stem) as [|x xs] eqn:Ex.
  { exfalso. apply Hstem. now rewrite <- (rev_involutive stem), Ex. }
  destruct (eqb (rev tl) []) eqn:Et.
  { apply eqb_eq in Et. exfalso. apply Htl.
    now rewrite <- (rev_involutive tl), Et. }
  cbn [andb]. now rewrite rev_involutive.
Qed.

Lemma asciiLower_idem (c : N) : asciiLower (asciiLower c) = asciiLower c.
Proof.
  unfold asciiLower.
  destruct ((65 <=? c) && (c <=? 90))%N eqn:E; [|now rewrite E].
  apply andb_true_iff in E as [H1 H2].
  apply N.leb_le in H1, H2.
  replace ((65 <=? c + 32) && (c + 32 <=? 90))%N with false; [reflexivity|].
  symmetry. apply andb_false_iff. right. apply N.leb_gt. lia.
Qed.

Lemma asciiLower_small (c x : N) :
  asciiLower c = x -> (x < 65)%N -> c = x.
Proof.
  unfold asciiLower.
  destruct ((65 <=? c) && (c <=? 90))%N eqn:E; [|easy].
  apply andb_true_iff in E as [H1 _]. apply N.leb_le in H1. lia.
Qed.

(** [toLowerCase] and the ASCII lower case give the same answer to the
    question whether the result is [t], when [t] holds none of the units
    the two differ on. *)
Lemma toLowerCase_ascii (e t : jsstring) :
  Forall (fun x => x <> 105 /\ x <> 775 /\ x <> 107
                   /\ x <> 304 /\ x <> 8490)%N t ->
  toLowerCase e = t <-> map asciiLower e = t.
Proof.
  revert t. induction e as [|c e IH]; intros t Ht.
  - reflexivity.
  - unfold toLowerCase. cbn [flat_map map]. fold (toLowerCase e).
    destruct (c =? 304)%N eqn:E1.
    { apply N.eqb_eq in E1. subst c. split.
      - intros <-. inversion Ht; subst. lia.
      - intros <-. inversion Ht; subst. cbn in *. lia. }
    destruct (c =? 8490)%N eqn:E2.
    { apply N.eqb_eq in E2. subst c. split.
      - intros <-. inversion Ht; subst. lia.
      - intros <-. inversion Ht; subst. cbn in *. lia. }
    cbn [app]. destruct t as [|x t].
    + split; discriminate.
    + inversion Ht; subst. specialize (IH t H2). split.
      * intros [= -> H]. f_equal. now apply IH.
      * intros [= -> H]. f_equal. now apply IH.
Qed.


(** ** Events of a method *)

Lemma emitsOnly_ret {A} (P : Event -> Prop) (a : A) : emitsOnly P (ret a).
Proof. intros s. constructor. Qed.

Lemma emitsOnly_throw {A} (P : Event -> Prop) (e : exn) :
  emitsOnly P (@throw A e).
Proof. intros s. constructor. Qed.

Lemma emitsOnly_await {A} (P : Event -> Prop) (settled : exn + A) :
  emitsOnly P (await settled).
Proof. destruct settled; [apply emitsOnly_throw | apply emitsOnly_ret]. Qed.

Lemma emitsOnly_emit (P : Event -> Prop) (ev : Event) :
  P ev -> emitsOnly P (emit ev).
Proof. intros H s. now constructor. Qed.

Lemma emitsOnly_get (P : Event -> Prop) : emitsOnly P get.
Proof. intros s. constructor. Qed.

Lemma emitsOnly_put (P : Event -> Prop) (s' : Provider) : emitsOnly P (put s').
Proof. intros s. constructor. Qed.

Lemma emitsOnly_bind {A B} (P : Event -> Prop) (m : M A) (f : A -> M B) :
  emitsOnly P m -> (forall a, emitsOnly P (f a)) -> emitsOnly P (bind m f).
Proof.
  intros Hm Hf s. unfold bind. specialize (Hm s).
  destruct (completion (m s)) as [a|e]; cbn [trace]; [|exact Hm].
  apply Forall_app. split; [exact Hm | apply Hf].
Qed.

Lemma emitsOnly_tryCatch {A} (P : Event -> Prop) (m : M A) (h : exn -> M A) :
  emitsOnly P m -> (forall e, emitsOnly P (h e)) -> emitsOnly P (tryCatch m h).
Proof.
  intros Hm Hh s. unfold tryCatch. specialize (Hm s).
  destruct (completion (m s)) as [a|e]; cbn [trace]; [exact Hm|].
  apply Forall_app. split; [exact Hm | apply Hh].
Qed.

Lemma last_app_ne {A} (a b : list A) (d : A) :
  b <> [] -> last (a ++ b) d = last b d.
Proof.
  intros Hb. destruct (exists_last Hb) as (b' & x & ->).
  now rewrite app_assoc, !last_last.
Qed.

Lemma asciiLower_notDot (c x : N) :
  asciiLower c = x -> x <> DOT -> notDot c = true.
Proof.
  intros H Hx. unfold notDot. apply negb_true_iff, N.eqb_neq.
  intros ->. apply Hx. now rewrite <- H.
Qed.

Lemma json_units :
  Forall (fun x => x <> 105 /\ x <> 775 /\ x <> 107
                   /\ x <> 304 /\ x <> 8490)%N (u ".json").
Proof. repeat constructor; intros H; discriminate H. Qed.

Section ProviderProperties.

Variable JSON_parse : jsstring -> exn + Js.value.
Variable yaml_load : jsstring -> exn + Js.value.
Variable collationKey : jsstring -> list N.
Variable showQuickPick : list QuickPickItem -> option QuickPickItem.

Local Abbreviation parseFile := (parseWorkflow JSON_parse yaml_load).
Local Abbreviation collect := (collectWorkflows JSON_parse yaml_load).
Local Abbreviation collectLoop := (collectEntries JSON_parse yaml_load).
Local Abbreviation decodedAt := (decoded JSON_parse yaml_load).
Local Abbreviation loadRoots := (loadFolders JSON_parse yaml_load).
Local Abbreviation load := (loadWorkflows JSON_parse yaml_load collationKey).
Local Abbreviation reload := (refresh JSON_parse yaml_load collationKey).
Local Abbreviation byLabel := (compareLabels collationKey).
Local Abbreviation run := (runWorkflow showQuickPick).
Local Abbreviation handlerOf :=
  (registeredCommand JSON_parse yaml_load collationKey showQuickPick).

(** ** What a scan emits *)

Section ScanEvents.

Variable P : Event -> Prop.
Hypothesis warnings_allowed : forall message, P (ShowWarningMessage message).

Lemma parseWorkflow_emits (p : jsstring) (file : exn + jsstring) :
  emitsOnly P (parseFile p file).
Proof.
  unfold parseWorkflow.
  apply emitsOnly_bind; [apply emitsOnly_await | intros raw].
  apply emitsOnly_bind; [| intros data; apply emitsOnly_ret].
  apply emitsOnly_tryCatch.
  - unfold decode. destruct (eqb _ _); [apply emitsOnly_await|].
    apply emitsOnly_bind; [apply emitsOnly_await | intros v].
    apply emitsOnly_ret.
  - intros e. apply emitsOnly_bind; [| intros _; apply emitsOnly_ret].
    apply emitsOnly_emit, warnings_allowed.
Qed.

Lemma collectEntries_emits (entries : list (jsstring * fsnode)) :
  Forall (fun ne => forall dir, emitsOnly P (collect dir (snd ne))) entries ->
  forall dir results, emitsOnly P (collectLoop dir entries results).
Proof.
  induction 1 as [|[name entry] rest Hentry _ IH]; intros dir results.
  - apply emitsOnly_ret.
  - cbn [collectEntries]. destruct (isDirectory entry).
    + apply emitsOnly_bind; [apply Hentry | intros sub; apply IH].
    + destruct (negb (isWorkflowFile name)); [apply IH|].
      apply emitsOnly_bind; [apply parseWorkflow_emits|].
      intros parsed. apply IH.
Qed.

Lemma collectWorkflows_emits (dir : jsstring) (node : fsnode) :
  emitsOnly P (collect dir node).
Proof.
  revert dir. induction node as [contents | entries IH | err]
    using fsnode_entries_ind; intros dir.
  - apply emitsOnly_throw.
  - change (collect dir (Dir entries)) with (collectLoop dir entries []).
    now apply collectEntries_emits.
  - apply emitsOnly_throw.
Qed.

Lemma loadFolders_emits (env : Env) (folders : list jsstring) :
  forall found, emitsOnly P (loadRoots env folders found).
Proof.
  induction folders as [|folder rest IH]; intros found.
  - apply emitsOnly_ret.
  - cbn [loadFolders]. apply emitsOnly_bind.
    + unfold pathExists. apply emitsOnly_tryCatch.
      * destruct (fs env _); [apply emitsOnly_ret | apply emitsOnly_throw].
      * intros _. apply emitsOnly_ret.
    + intros ex. destruct (negb ex); [apply IH|].
      apply emitsOnly_bind.
      * destruct (fs env _);
          [apply collectWorkflows_emits | apply emitsOnly_throw].
      * intros sub. apply emitsOnly_bind; [apply emitsOnly_get | intros s0].
        apply emitsOnly_bind; [apply emitsOnly_put | intros _]. apply IH.
Qed.

End ScanEvents.

Lemma disposeAll_emits (ws : list Watcher) :
  emitsOnly scanEvent (disposeAll ws).
Proof.
  induction ws as [|w ws IH]; [apply emitsOnly_ret|].
  cbn [disposeAll]. apply emitsOnly_bind; [now apply emitsOnly_emit|].
  intros _. exact IH.
Qed.

Lemma loadWorkflows_emits (env : Env) : emitsOnly scanEvent (load env).
Proof.
  unfold loadWorkflows.
  apply emitsOnly_bind; [apply emitsOnly_get | intros s0].
  apply emitsOnly_bind; [apply disposeAll_emits | intros _].
  apply emitsOnly_bind; [apply emitsOnly_put | intros _].
  apply emitsOnly_bind;
    [apply loadFolders_emits; reflexivity | intros found].
  apply emitsOnly_bind; [apply emitsOnly_get | intros s1].
  apply emitsOnly_put.
Qed.

(** X6. A scan only disposes watchers and shows parse warnings: it never
    creates a terminal, sends a command, shows an information message or a
    quick pick, or fires the change event, whatever the file system holds
    and whether it completes or throws. *)
Theorem scan_only_warns (env : Env) (s : Provider) :
  Forall (fun ev => isScanEvent ev = true) (trace (load env s))
  /\ (forall name cwd, ~ In (CreateTerminal name cwd) (trace (load env s)))
  /\ (forall text nl, ~ In (TerminalSendText text nl) (trace (load env s)))
  /\ ~ In FireDidChangeTreeData (trace (load env s)).
Proof.
  pose proof (loadWorkflows_emits env s) as H.
  split; [exact H|]. rewrite Forall_forall in H.
  repeat split; intros; intros Hin; apply H in Hin; discriminate.
Qed.


(** ** Watchers *)

Lemma expectedWatchers_present (env : Env) (folder : jsstring)
    (rest : list jsstring) (node : fsnode) :
  fs env (join folder WINDSURF_DIR) = Some node ->
  expectedWatchers env (folder :: rest)
  = mkWatcher folder WATCH_PATTERN :: expectedWatchers env rest.
Proof. intros H. unfold expectedWatchers. cbn [filter]. now rewrite H. Qed.

Lemma expectedWatchers_absent (env : Env) (folder : jsstring)
    (rest : list jsstring) :
  fs env (join folder WINDSURF_DIR) = None ->
  expectedWatchers env (folder :: rest) = expectedWatchers env rest.
Proof. intros H. unfold expectedWatchers. cbn [filter]. now rewrite H. Qed.

(** The watchers the roots loop registers: all the expected ones when it
    completes, and only those of the folders before the failing one when it
    throws. *)
Lemma loadFolders_watchers (env : Env) (folders : list jsstring) :
  forall found s,
    match completion (loadRoots env folders found s) with
    | Normal _ =>
        watchers (state (loadRoots env folders found s))
        = watchers s ++ expectedWatchers env folders
    | Throw _ =>
        exists k,
          k < length (expectedWatchers env folders)
          /\ watchers (state (loadRoots env folders found s))
             = watchers s ++ firstn k (expectedWatchers env folders)
    end.
Proof.
  induction folders as [|folder rest IH]; intros found s.
  - cbn. now rewrite app_nil_r.
  - destruct (fs env (join folder WINDSURF_DIR)) as [node|] eqn:E.
    + destruct (collectWorkflows_stateFree JSON_parse yaml_load
                  (join folder WINDSURF_DIR) node) as (c & t & Hc).
      rewrite (loadFolders_present JSON_parse yaml_load env folder rest found
                 s node c t E Hc).
      rewrite (expectedWatchers_present env folder rest node E).
      destruct c as [sub|e]; cbn [completion state].
      * specialize (IH (found ++ sub)
                      (mkProvider (workflows s)
                         (watchers s ++ [mkWatcher folder WATCH_PATTERN]))).
        destruct (completion (loadRoots env rest (found ++ sub) _)).
        -- rewrite IH. cbn [watchers]. now rewrite <- app_assoc.
        -- destruct IH as (k & Hk & IH). exists (S k). split.
           ++ cbn [length]. lia.
           ++ rewrite IH. cbn [watchers firstn]. now rewrite <- app_assoc.
      * exists 0. split; [cbn [length]; lia|].
        cbn [firstn]. now rewrite app_nil_r.
    + rewrite (loadFolders_absent JSON_parse yaml_load env folder rest found
                 s E).
      rewrite (expectedWatchers_absent env folder rest E). apply IH.
Qed.

(** X4. A scan starts by disposing every watcher the provider holds when
    it is called, each once and in their order; whatever it emits after
    that is a warning. This is so whether the scan completes or throws. *)
Theorem scan_disposes_held_watchers (env : Env) (s : Provider) :
  exists notes,
    trace (load env s) = map DisposeWatcher (watchers s) ++ notes
    /\ Forall isWarning notes.
Proof.
  rewrite (loadWorkflows_run JSON_parse yaml_load collationKey env s).
  cbv zeta. fold (foldersOf env).
  pose proof (loadFolders_emits isWarning
                (fun message => ex_intro _ message eq_refl)
                env (foldersOf env) [] (mkProvider (workflows s) [])) as He.
  destruct (completion (loadRoots env (foldersOf env) [] _)) as [found|e];
    cbn [trace]; eexists; (split; [reflexivity | exact He]).
Qed.

(** X5. A scan that throws does not replace the list: the provider has the
    list it had, and the view shows the same items as before. *)
Theorem failed_scan_keeps_list (env : Env) (s : Provider) (e : exn) :
  completion (load env s) = Throw e ->
  workflows (state (load env s)) = workflows s
  /\ getChildren (state (load env s)) = getChildren s.
Proof.
  rewrite (loadWorkflows_run JSON_parse yaml_load collationKey env s).
  cbv zeta. fold (foldersOf env).
  destruct (loadFolders_provider JSON_parse yaml_load env (foldersOf env) []
              (mkProvider (workflows s) []) (mkProvider (workflows s) []))
    as [_ Hl].
  destruct (completion (loadRoots env (foldersOf env) [] _)) as [found|e'];
    cbn [completion state]; [discriminate | intros _].
  cbn [workflows] in Hl.
  split; [exact Hl|]. unfold getChildren. now rewrite Hl.
Qed.

(** X3. [refresh] fires the change event once, after the list has been
    replaced, when the scan completes; when the scan throws it throws the
    same error and the event is not fired, so the view is not told. *)
Theorem refresh_fires_after_completed_scan (env : Env) (s : Provider) :
  (completion (load env s) = Normal tt ->
   reload env s
   = mkReply (Normal tt) (state (load env s))
       (trace (load env s) ++ [FireDidChangeTreeData]))
  /\ (forall e, completion (load env s) = Throw e ->
                reload env s = load env s)
  /\ ~ In FireDidChangeTreeData (trace (load env s)).
Proof.
  split; [|split].
  - intros H. unfold refresh.
    rewrite (bind_normal _ _ s (state (load env s)) tt (trace (load env s))).
    + reflexivity.
    + rewrite <- H. symmetry. apply reply_eta.
  - intros e H. unfold refresh.
    rewrite (bind_throw _ _ s (state (load env s)) e (trace (load env s))).
    + rewrite <- H. apply reply_eta.
    + rewrite <- H. symmetry. apply reply_eta.
  - intros Hin. pose proof (loadWorkflows_emits env s) as H.
    rewrite Forall_forall in H. apply H in Hin. discriminate.
Qed.

(** X12. With no workspace folder (none open, or an empty list) a scan
    completes, empties the list and the watchers, and shows nothing; the
    view then shows the placeholder. *)
Theorem scan_without_folders_clears_list (env : Env) (s : Provider) :
  foldersOf env = [] ->
  load env s
  = mkReply (Normal tt) (mkProvider [] []) (map DisposeWatcher (watchers s))
  /\ getChildren (state (load env s)) = [placeholder].
Proof.
  intros H.
  rewrite (loadWorkflows_run JSON_parse yaml_load collationKey env s).
  cbv zeta. fold (foldersOf env). rewrite H.
  cbn [loadFolders ret completion state trace watchers sort fold_right].
  rewrite app_nil_r. now split.
Qed.

(** ** The view *)

(** X1. With a list that is not empty the view has one item for each
    record, in the order of the list, with the record's label and
    description and its path as tooltip. The command of an item is
    registered by [activate], and running it with the item launches the
    item's record. *)
Theorem shown_item_launches_its_record (env : Env) (s : Provider)
    (i : nat) (wf : WorkflowDefinition) :
  nth_error (workflows s) i = Some wf ->
  length (getChildren s) = length (workflows s)
  /\ exists item c handler,
       nth_error (getChildren s) i = Some item
       /\ launchPart item = mkItem (label wf) (description wf) (Some wf)
       /\ tooltip item = Some (filePath wf)
       /\ itemCommand item = Some c
       /\ handlerOf env (commandId c) = Some handler
       /\ handler (Some (getTreeItem item)) s = executeWorkflow wf s.
Proof.
  intros H.
  assert (Hne : (length (workflows s) =? 0)%nat = false).
  { destruct (workflows s); [destruct i; discriminate | reflexivity]. }
  unfold getChildren. rewrite Hne. split; [apply length_map|].
  eexists. eexists. eexists.
  split; [apply map_nth_error, H|].
  repeat split.
Qed.

(** X2. The view is never empty. With an empty list it shows a single
    placeholder, which has no record, no command and no description (the
    description given in the options is not read); running the launch
    command on it shows the information message. *)
Theorem empty_list_shows_placeholder (s : Provider) :
  length (getChildren s) = Nat.max 1 (length (workflows s))
  /\ (workflows s = [] ->
      getChildren s = [placeholder]
      /\ workflow (launchPart placeholder) = None
      /\ itemCommand placeholder = None
      /\ itemDescription (launchPart placeholder) = None
      /\ run (Some (launchPart placeholder)) s
         = mkReply (Normal tt) s [ShowInformationMessage NO_WORKFLOWS]).
Proof.
  split.
  - unfold getChildren. destruct (workflows s) as [|w ws]; [reflexivity|].
    cbn [length Nat.eqb]. rewrite length_map. cbn [length]. lia.
  - intros H. unfold getChildren, runWorkflow. rewrite H. cbn [length Nat.eqb].
    repeat split. cbn [hasWorkflow placeholder newWorkflowTreeItem launchPart
                       workflow optWorkflow].
    rewrite bind_get, H. reflexivity.
Qed.

(** ** Parsing *)

Lemma recordOf_not_mapping (p : jsstring) (v : Js.value) :
  isMapping v = false \/ v = Js.Object [] ->
  recordOf p v = fallbackRecord p.
Proof.
  intros [H | ->]; [|reflexivity].
  destruct v; try reflexivity; discriminate.
Qed.

(** X7. A file that decodes to something that is not a mapping (null, a
    number, a string, a list) or to an empty mapping gives the record with
    the base name as label and no other field, and no warning is shown; so
    does a YAML file that is empty, for which [yaml.load] returns undefined
    or null. *)
Theorem non_mapping_gives_fallback (p raw : jsstring) (s : Provider) :
  (forall v,
     decodedAt p raw = inr v ->
     isMapping v = false \/ v = Js.Object [] ->
     parseFile p (inr raw) s = mkReply (Normal (fallbackRecord p)) s [])
  /\ (forall v,
        eqb (toLowerCase (extname p)) (u ".json") = false ->
        yaml_load raw = inr v -> v = Js.Undefined \/ v = Js.Null ->
        parseFile p (inr raw) s = mkReply (Normal (fallbackRecord p)) s []).
Proof.
  assert (H : forall v,
            decodedAt p raw = inr v ->
            isMapping v = false \/ v = Js.Object [] ->
            parseFile p (inr raw) s
            = mkReply (Normal (fallbackRecord p)) s []).
  { intros v Hd Hv.
    rewrite (parseWorkflow_read JSON_parse yaml_load p raw s).
    unfold dataOf. rewrite Hd. now rewrite (recordOf_not_mapping p v Hv). }
  split; [exact H|].
  intros v Hext Hy Hv. apply (H (Js.Object [])); [|now right].
  unfold decoded. rewrite Hext, Hy. now destruct Hv as [-> | ->].
Qed.

(** X10. When the label comes from [name], it is [name] without the white
    space at its two ends: [name] is the label between two runs of white
    space, and the label neither starts nor ends with white space. White
    space inside is kept. *)
Theorem label_is_name_without_outer_space
    (p raw name : jsstring) (s : Provider) :
  Js.getProp (dataOf JSON_parse yaml_load p raw) (u "name") = Js.Str name ->
  trim name <> [] ->
  exists wf log l r,
    parseFile p (inr raw) s = mkReply (Normal wf) s log
    /\ name = l ++ label wf ++ r
    /\ forallb isWhiteSpace l = true /\ forallb isWhiteSpace r = true
    /\ isWhiteSpace (hd 0%N (label wf)) = false
    /\ isWhiteSpace (last (label wf) 0%N) = false.
Proof.
  intros Hname Hne.
  destruct (trim_spec name) as ((l & r & Hsplit & Hl & Hr) & Hhead & Hlast).
  eexists. eexists. exists l, r.
  split; [apply parseWorkflow_read|].
  unfold recordOf. cbn [label]. rewrite Hname.
  destruct (trim name) as [|c t] eqn:E; [congruence|].
  cbn [length Nat.ltb Nat.leb hd].
  repeat split; try assumption.
  - now apply (Hhead c t).
  - now apply Hlast.
Qed.

(** ** Filter and decoder *)

(** X11. The filter does not look at the letter case of the name nor at
    what precedes its ending: a name and its ASCII lower case are accepted
    alike, a name that ends with an accepted name is accepted, and an
    accepted name has at least four units. *)
Theorem filter_ignores_case_and_stem (name : jsstring) :
  isWorkflowFile (map asciiLower name) = isWorkflowFile name
  /\ (forall pre, isWorkflowFile name = true ->
                  isWorkflowFile (pre ++ name) = true)
  /\ (isWorkflowFile name = true -> 4 <= length name).
Proof.
  assert (Hcase : forall suffix,
            endsWithIgnoreCase suffix (map asciiLower name)
            = endsWithIgnoreCase suffix name).
  { intros suffix. unfold endsWithIgnoreCase.
    rewrite length_map, skipn_map, map_map.
    f_equal. f_equal. apply map_ext. intros c. apply asciiLower_idem. }
  assert (Hpre : forall suffix pre,
            endsWithIgnoreCase suffix name = true ->
            endsWithIgnoreCase suffix (pre ++ name) = true).
  { intros suffix pre H. apply endsWithIgnoreCase_spec in H
      as (stem & ext & -> & He).
    apply endsWithIgnoreCase_spec. exists (pre ++ stem), ext.
    split; [now rewrite app_assoc | exact He]. }
  assert (Hlen : forall suffix,
            endsWithIgnoreCase suffix name = true ->
            length suffix <= length name).
  { intros suffix H. unfold endsWithIgnoreCase in H.
    apply andb_true_iff in H as [H _]. now apply Nat.leb_le. }
  unfold isWorkflowFile. split; [|split].
  - now rewrite !Hcase.
  - intros pre. rewrite !orb_true_iff.
    intros [[[H|H]|H]|H]; auto using Hpre.
  - rewrite !orb_true_iff.
    intros [[[H|H]|H]|H]; apply Hlen in H; cbn in H; lia.
Qed.

(** The lower-cased extension of an entry's path is [.json] exactly when
    the name ends, letter case apart, with [.json] after a stem that is not
    empty; never when it ends with [.workflow], [.yaml] or [.yml]. *)
Lemma json_extension_of_entry (dir name : jsstring) :
  isEntryName name = true ->
  (eqb (toLowerCase (extname (join dir name))) (u ".json") = true <->
   exists stem ext,
     stem <> [] /\ name = stem ++ ext /\ map asciiLower ext = u ".json")
  /\ (forall stem ext,
        name = stem ++ ext ->
        In (map asciiLower ext) [u ".workflow"; u ".yaml"; u ".yml"] ->
        eqb (toLowerCase (extname (join dir name))) (u ".json") = false).
Proof.
  intros He. rewrite (extname_join dir name He).
  assert (Hiff : eqb (toLowerCase (extname name)) (u ".json") = true <->
                 exists stem ext,
                   stem <> [] /\ name = stem ++ ext
                   /\ map asciiLower ext = u ".json").
  { rewrite eqb_eq, (toLowerCase_ascii _ _ json_units). split.
    - intros H.
      destruct (extname_inv name (extname name) eq_refl) as (stem & Hs & Hb).
      { intros E. rewrite E in H. discriminate H. }
      rewrite (basename_entry name He) in Hb.
      now exists stem, (extname name).
    - intros (stem & ext & Hs & Hn & Hl).
      destruct ext as [|c0 [|c1 [|c2 [|c3 [|c4 [|c5 ext]]]]]];
        try discriminate Hl.
      injection Hl as H0 H1 H2 H3 H4.
      apply asciiLower_small in H0; [|reflexivity].
      change 46%N with DOT in H0. subst c0.
      rewrite (extname_suffix name stem [c1; c2; c3; c4]).
      + cbn [map]. now rewrite H1, H2, H3, H4.
      + now rewrite (basename_entry name He).
      + exact Hs.
      + discriminate.
      + cbn [forallb].
        rewrite (asciiLower_notDot c1 _ H1), (asciiLower_notDot c2 _ H2),
          (asciiLower_notDot c3 _ H3), (asciiLower_notDot c4 _ H4);
          [reflexivity | | | |]; discriminate. }
  split; [exact Hiff|].
  intros stem ext Hn Hin.
  destruct (eqb (toLowerCase (extname name)) (u ".json")) eqn:E;
    [|reflexivity].
  exfalso. destruct (proj1 Hiff eq_refl) as (stem' & ext' & _ & Hn' & Hl').
  assert (Hlast : last (map asciiLower name) 0%N = 110%N).
  { rewrite Hn', map_app, last_app_ne; [now rewrite Hl'|].
    rewrite Hl'. discriminate. }
  rewrite Hn, map_app in Hlast.
  destruct Hin as [H | [H | [H | []]]]; rewrite <- H in Hlast;
    (rewrite last_app_ne in Hlast; [discriminate Hlast | discriminate]).
Qed.

(** X8. For an entry of a scanned directory [parseWorkflow] gives the
    contents to [JSON.parse] exactly when the name ends, letter case apart,
    with [.json] after a stem that is not empty, and to [yaml.load]
    otherwise; a name accepted for its [.workflow], [.yaml] or [.yml]
    ending always goes to [yaml.load]. *)
Theorem decoder_follows_json_suffix (dir name raw : jsstring) (s : Provider) :
  isEntryName name = true ->
  ((exists stem ext,
      stem <> [] /\ name = stem ++ ext /\ map asciiLower ext = u ".json") ->
   parseFile (join dir name) (inr raw) s
   = parsedWith (JSON_parse raw) (join dir name) s)
  /\ (~ (exists stem ext,
           stem <> [] /\ name = stem ++ ext
           /\ map asciiLower ext = u ".json") ->
      parseFile (join dir name) (inr raw) s
      = parsedWith (yamlOutcome yaml_load raw) (join dir name) s)
  /\ (forall stem ext,
        name = stem ++ ext ->
        In (map asciiLower ext) [u ".workflow"; u ".yaml"; u ".yml"] ->
        parseFile (join dir name) (inr raw) s
        = parsedWith (yamlOutcome yaml_load raw) (join dir name) s).
Proof.
  intros He. destruct (json_extension_of_entry dir name He) as [Hiff Hyaml].
  rewrite (parseWorkflow_parsedWith JSON_parse yaml_load).
  split; [|split].
  - intros H. apply Hiff in H. now rewrite H.
  - intros H.
    destruct (eqb (toLowerCase (extname (join dir name))) (u ".json")) eqn:E;
      [|reflexivity].
    elim H. now apply Hiff.
  - intros stem ext Hn Hin. now rewrite (Hyaml stem ext Hn Hin).
Qed.

(** ** Records of a scan *)

Lemma acceptedEntries_named (entries : list (jsstring * fsnode)) :
  Forall (fun ne => forall dir, wellNamed (snd ne) = true ->
                    Forall named (acceptedFiles dir (snd ne))) entries ->
  forall dir,
    wellNamedEntries entries = true ->
    Forall named (acceptedEntries dir entries).
Proof.
  induction 1 as [|[name entry] rest Hentry _ IH]; intros dir Hw.
  - constructor.
  - cbn [wellNamedEntries] in Hw.
    apply andb_true_iff in Hw as [Hw Hrest].
    apply andb_true_iff in Hw as [Hname Hsub].
    cbn [snd] in Hentry. cbn [acceptedEntries].
    destruct entry as [contents | sub | err].
    + destruct (isWorkflowFile name); [|now apply IH].
      constructor; [|now apply IH]. now exists dir, name.
    + apply Forall_app. split; [now apply Hentry | now apply IH].
    + apply Forall_app. split; [now apply Hentry | now apply IH].
Qed.

Lemma acceptedFiles_named (dir : jsstring) (node : fsnode) :
  wellNamed node = true -> Forall named (acceptedFiles dir node).
Proof.
  revert dir. induction node as [contents | entries IH | err]
    using fsnode_entries_ind; intros dir Hw; try constructor.
  change (acceptedFiles dir (Dir entries)) with (acceptedEntries dir entries).
  now apply acceptedEntries_named.
Qed.

Lemma recordOf_label (p : jsstring) (data : Js.value) :
  basename p <> [] -> label (recordOf p data) <> [].
Proof.
  intros Hb. unfold recordOf. cbn [label].
  destruct (Js.getProp data (u "name")); try exact Hb.
  destruct (trim s) as [|c t]; [exact Hb | discriminate].
Qed.

(** X9. In a tree whose entries have the names [fs.readdir] gives, every
    record of a completed scan has a label that is not empty, and the path
    of the record is the path of a directory joined with the name of the
    entry, which is the base name the label falls back to. *)
Theorem scanned_labels_not_empty (dir : jsstring) (node : fsnode)
    (s : Provider) (records : list WorkflowDefinition) :
  wellNamed node = true ->
  completion (collect dir node s) = Normal records ->
  Forall (fun wf =>
            label wf <> []
            /\ exists d n,
                 isEntryName n = true /\ filePath wf = join d n
                 /\ basename (filePath wf) = n) records.
Proof using JSON_parse yaml_load.
  clear collationKey showQuickPick.
  intros Hw Hc.
  assert (Hscan : scannable node = true).
  { destruct (scannable node) eqn:E; [reflexivity|].
    destruct (collectWorkflows_throws JSON_parse yaml_load dir node s E)
      as (e & He). congruence. }
  destruct (collectWorkflows_scan JSON_parse yaml_load dir node s Hscan)
    as (os & HF & Heq).
  rewrite Heq in Hc. cbn [completion] in Hc. injection Hc as <-.
  pose proof (acceptedFiles_named dir node Hw) as Hn.
  clear Heq. induction HF as [|f o fs0 os Hfo _ IH]; [constructor|].
  inversion Hn as [|? ? (d & n & Hname & Hpath) Hn']; subst.
  cbn [map]. constructor; [|now apply IH].
  destruct Hfo as (Hparse & Hfile & _).
  assert (Hbase : basename (fst f) = n).
  { rewrite Hpath. now apply basename_join. }
  split.
  - destruct (snd f) as [e|raw]; [discriminate Hparse|].
    rewrite (parseWorkflow_read JSON_parse yaml_load) in Hparse.
    injection Hparse as <- _. apply recordOf_label. rewrite Hbase.
    apply isEntryName_spec in Hname. tauto.
  - exists d, n. rewrite Hfile. now repeat split.
Qed.

(** X13. A scan that completes leaves nothing of what the provider held:
    the list and the watchers after it are the same whatever the list and
    the watchers were before, and whether it completes does not depend on
    them either. *)
Theorem completed_scan_forgets_previous_state (env : Env) (s1 s2 : Provider) :
  completion (load env s1) = completion (load env s2)
  /\ (completion (load env s1) = Normal tt ->
      state (load env s1) = state (load env s2)).
Proof.
  rewrite !(loadWorkflows_run JSON_parse yaml_load collationKey env).
  cbv zeta. fold (foldersOf env).
  destruct (loadFolders_provider JSON_parse yaml_load env (foldersOf env) []
              (mkProvider (workflows s1) []) (mkProvider (workflows s2) []))
    as [Hc _].
  pose proof (loadFolders_watchers env (foldersOf env) []
                (mkProvider (workflows s1) [])) as Hw1.
  pose proof (loadFolders_watchers env (foldersOf env) []
                (mkProvider (workflows s2) [])) as Hw2.
  rewrite <- Hc in Hw2 |- *.
  destruct (completion (loadRoots env (foldersOf env) []
                          (mkProvider (workflows s1) []))) as [found|e];
    cbn [completion state].
  - split; [reflexivity | intros _]. now rewrite Hw1, Hw2.
  - split; [reflexivity | discriminate].
Qed.

(** X14. A designated subdirectory that exists but is a file, or that
    cannot be listed, is not skipped like a missing one: the scan throws
    the error of [fs.readdir] (for a file, the ENOTDIR error that names the
    path). When this is the first folder, the provider is left with its old
    list and without any watcher. *)
Theorem unlistable_subdirectory_aborts_scan (env : Env) (folder : jsstring)
    (rest : list jsstring) (node : fsnode) (s : Provider) :
  workspaceFolders env = Some (folder :: rest) ->
  fs env (join folder WINDSURF_DIR) = Some node ->
  isDirectory node = false \/ (exists err, node = Unlistable err) ->
  exists e,
    load env s
    = mkReply (Throw e) (mkProvider (workflows s) [])
        (map DisposeWatcher (watchers s))
    /\ (isDirectory node = false ->
        e = scandirError (join folder WINDSURF_DIR))
    /\ (forall err, node = Unlistable err -> e = err).
Proof.
  intros Hf Hfs Hnode.
  assert (Hthrow : exists e,
            (forall s', collect (join folder WINDSURF_DIR) node s'
                        = mkReply (Throw e) s' [])
            /\ (isDirectory node = false ->
                e = scandirError (join folder WINDSURF_DIR))
            /\ (forall err, node = Unlistable err -> e = err)).
  { destruct Hnode as [H | (err & ->)].
    - destruct node; try discriminate.
      exists (scandirError (join folder WINDSURF_DIR)).
      split; [reflexivity | split; [reflexivity | intros err [=]]].
    - exists err.
      split; [reflexivity | split; [discriminate | now intros err' [= ->]]]. }
  destruct Hthrow as (e & Hc & He1 & He2). exists e.
  split; [|now split].
  rewrite (loadWorkflows_run JSON_parse yaml_load collationKey env s).
  cbv zeta. rewrite Hf.
  rewrite (loadFolders_present JSON_parse yaml_load env folder rest []
             (mkProvider (workflows s) []) node (Throw e) [] Hfs Hc).
  cbn [completion state trace]. now rewrite app_nil_r.
Qed.

Lemma StronglySorted_map {A B} (f : A -> B) (R : B -> B -> Prop)
    (l : list A) :
  StronglySorted (fun a b => R (f a) (f b)) l -> StronglySorted R (map f l).
Proof.
  induction 1 as [|a l Hl IH Ha]; cbn [map]; constructor; [exact IH|].
  apply Forall_map. exact Ha.
Qed.

(** X15. After a scan that completes with records, the labels of the items
    of the view are the labels of the records, in ascending order under
    [localeCompare]. *)
Theorem shown_items_in_label_order (env : Env) (s : Provider) :
  completion (load env s) = Normal tt ->
  workflows (state (load env s)) <> [] ->
  map (fun item => itemLabel (launchPart item))
      (getChildren (state (load env s)))
  = map label (workflows (state (load env s)))
  /\ StronglySorted
       (fun a b => (localeCompare collationKey a b <= 0)%Z)
       (map (fun item => itemLabel (launchPart item))
            (getChildren (state (load env s)))).
Proof.
  intros Hc Hne.
  assert (Hlabels :
            map (fun item => itemLabel (launchPart item))
                (getChildren (state (load env s)))
            = map label (workflows (state (load env s)))).
  { unfold getChildren.
    destruct (workflows (state (load env s))) as [|w ws] eqn:E;
      [congruence|].
    cbn [length Nat.eqb]. rewrite map_map. reflexivity. }
  split; [exact Hlabels|]. rewrite Hlabels.
  apply StronglySorted_map.
  revert Hc. clear Hne Hlabels.
  rewrite (loadWorkflows_run JSON_parse yaml_load collationKey env s).
  cbv zeta.
  destruct (completion (loadRoots env _ [] _)) as [found|e];
    cbn [completion state workflows]; [intros _ | discriminate].
  apply (sort_sorted WorkflowDefinition byLabel
           (compareLabels_total collationKey)
           (compareLabels_trans collationKey)).
Qed.

End ProviderProperties.

(** ** Instances *)

Lemma shown_item_launches_its_record_witness :
  length (getChildren oneRecord) = 1
  /\ exists item c handler,
       nth_error (getChildren oneRecord) 0 = Some item
       /\ launchPart item = mkItem (u "Echo") None (Some echoRecord)
       /\ tooltip item = Some (u "/proj/.windsurf/echo.yaml")
       /\ itemCommand item = Some c
       /\ registeredCommand sampleJSON sampleYAML sampleKey dismiss sampleEnv
            (commandId c) = Some handler
       /\ handler (Some (getTreeItem item)) oneRecord
          = executeWorkflow echoRecord oneRecord.
Proof.
  apply (shown_item_launches_its_record sampleJSON sampleYAML sampleKey
           dismiss sampleEnv oneRecord 0 echoRecord).
  reflexivity.
Defined.

Lemma empty_list_shows_placeholder_witness :
  getChildren emptyProvider = [placeholder]
  /\ runWorkflow dismiss (Some (launchPart placeholder)) emptyProvider
     = mkReply (Normal tt) emptyProvider [ShowInformationMessage NO_WORKFLOWS].
Proof.
  destruct (proj2 (empty_list_shows_placeholder dismiss emptyProvider)
              eq_refl) as (H1 & _ & _ & _ & H2).
  now split.
Defined.

Lemma refresh_fires_after_completed_scan_witness :
  refresh sampleJSON sampleYAML sampleKey sampleEnv emptyProvider
  = mkReply (Normal tt)
      (state (loadWorkflows sampleJSON sampleYAML sampleKey sampleEnv
                emptyProvider))
      (trace (loadWorkflows sampleJSON sampleYAML sampleKey sampleEnv
                emptyProvider) ++ [FireDidChangeTreeData])
  /\ refresh sampleJSON sampleYAML sampleKey unreadableEnv emptyProvider
     = loadWorkflows sampleJSON sampleYAML sampleKey unreadableEnv
         emptyProvider.
Proof.
  split.
  - apply (proj1 (refresh_fires_after_completed_scan sampleJSON sampleYAML
                    sampleKey sampleEnv emptyProvider)).
    reflexivity.
  - apply (proj1 (proj2 (refresh_fires_after_completed_scan sampleJSON
                           sampleYAML sampleKey unreadableEnv emptyProvider))
             EACCES).
    reflexivity.
Defined.

Lemma failed_scan_keeps_list_witness :
  workflows
    (state (loadWorkflows sampleJSON sampleYAML sampleKey unreadableEnv
              oneRecord))
  = [echoRecord].
Proof.
  rewrite (proj1 (failed_scan_keeps_list sampleJSON sampleYAML sampleKey
                    unreadableEnv oneRecord EACCES eq_refl)).
  reflexivity.
Defined.

Lemma non_mapping_gives_fallback_witness :
  parseWorkflow sampleJSON sampleYAML (u "/proj/.windsurf/n.json")
    (inr (u "null")) emptyProvider
  = mkReply (Normal (fallbackRecord (u "/proj/.windsurf/n.json")))
      emptyProvider []
  /\ parseWorkflow sampleJSON sampleYAML (u "/proj/.windsurf/e.yaml")
       (inr []) emptyProvider
     = mkReply (Normal (fallbackRecord (u "/proj/.windsurf/e.yaml")))
         emptyProvider [].
Proof.
  split.
  - apply (proj1 (non_mapping_gives_fallback sampleJSON sampleYAML
                    (u "/proj/.windsurf/n.json") (u "null") emptyProvider)
             Js.Null); [reflexivity | now left].
  - apply (proj2 (non_mapping_gives_fallback sampleJSON sampleYAML
                    (u "/proj/.windsurf/e.yaml") [] emptyProvider)
             Js.Undefined); [reflexivity | reflexivity | now left].
Defined.

Lemma decoder_follows_json_suffix_witness :
  parseWorkflow sampleJSON sampleYAML
    (join (u "/proj/.windsurf") (u "Build.JSON")) (inr (u "{}")) emptyProvider
  = parsedWith (sampleJSON (u "{}"))
      (join (u "/proj/.windsurf") (u "Build.JSON")) emptyProvider
  /\ parseWorkflow sampleJSON sampleYAML
       (join (u "/proj/.windsurf") (u "Build.YAML")) (inr (u "{}"))
       emptyProvider
     = mkReply (Normal (fallbackRecord (u "/proj/.windsurf/Build.YAML")))
         emptyProvider
         [ parseWarning (u "/proj/.windsurf/Build.YAML")
             (u "YAMLException: bad indentation of a mapping entry") ].
Proof.
  split.
  - apply (proj1 (decoder_follows_json_suffix sampleJSON sampleYAML
                    (u "/proj/.windsurf") (u "Build.JSON") (u "{}")
                    emptyProvider eq_refl)).
    exists (u "Build"), (u ".JSON").
    split; [discriminate | split; reflexivity].
  - rewrite (proj2 (proj2 (decoder_follows_json_suffix sampleJSON sampleYAML
                             (u "/proj/.windsurf") (u "Build.YAML") (u "{}")
                             emptyProvider eq_refl))
               (u "Build") (u ".YAML") eq_refl).
    + reflexivity.
    + right. left. reflexivity.
Defined.

Lemma scanned_labels_not_empty_witness :
  Forall (fun wf =>
            label wf <> []
            /\ exists d n,
                 isEntryName n = true /\ filePath wf = join d n
                 /\ basename (filePath wf) = n)
    (recordsOf (collectWorkflows sampleJSON sampleYAML (u "/proj/.windsurf")
                  sampleTree emptyProvider)).
Proof.
  apply (scanned_labels_not_empty sampleJSON sampleYAML (u "/proj/.windsurf")
           sampleTree emptyProvider); reflexivity.
Defined.

Lemma label_is_name_without_outer_space_witness :
  exists wf log l r,
    parseWorkflow sampleJSON paddedYAML (u "/proj/.windsurf/d.yaml")
      (inr (u "name: ' Deploy app '")) emptyProvider
    = mkReply (Normal wf) emptyProvider log
    /\ u " Deploy app " = l ++ label wf ++ r
    /\ forallb isWhiteSpace l = true /\ forallb isWhiteSpace r = true
    /\ isWhiteSpace (hd 0%N (label wf)) = false
    /\ isWhiteSpace (last (label wf) 0%N) = false.
Proof.
  apply (label_is_name_without_outer_space sampleJSON paddedYAML
           (u "/proj/.windsurf/d.yaml") (u "name: ' Deploy app '")
           (u " Deploy app ") emptyProvider).
  - reflexivity.
  - discriminate.
Defined.

Lemma scan_without_folders_clears_list_witness :
  loadWorkflows sampleJSON sampleYAML sampleKey noFolders oneRecord
  = mkReply (Normal tt) (mkProvider [] []) []
  /\ getChildren
       (state (loadWorkflows sampleJSON sampleYAML sampleKey noFolders
                 oneRecord))
     = [placeholder].
Proof.
  apply (scan_without_folders_clears_list sampleJSON sampleYAML sampleKey
           noFolders oneRecord).
  reflexivity.
Defined.

Lemma completed_scan_forgets_previous_state_witness :
  state (loadWorkflows sampleJSON sampleYAML sampleKey sampleEnv emptyProvider)
  = state (loadWorkflows sampleJSON sampleYAML sampleKey sampleEnv oneRecord).
Proof.
  apply (proj2 (completed_scan_forgets_previous_state sampleJSON sampleYAML
                  sampleKey sampleEnv emptyProvider oneRecord)).
  reflexivity.
Defined.

Lemma unlistable_subdirectory_aborts_scan_witness :
  exists e,
    loadWorkflows sampleJSON sampleYAML sampleKey fileAsSubdirectory oneRecord
    = mkReply (Throw e) (mkProvider [echoRecord] []) []
    /\ (isDirectory (File (inr (u "{}"))) = false ->
        e = u "Error: ENOTDIR: not a directory, scandir '/proj/.windsurf'")
    /\ (forall err, File (inr (u "{}")) = Unlistable err -> e = err).
Proof.
  apply (unlistable_subdirectory_aborts_scan sampleJSON sampleYAML sampleKey
           fileAsSubdirectory (u "/proj") [] (File (inr (u "{}"))) oneRecord).
  - reflexivity.
  - reflexivity.
  - now left.
Defined.

Lemma shown_items_in_label_order_witness :
  map (fun item => itemLabel (launchPart item))
      (getChildren
         (state (loadWorkflows sampleJSON sampleYAML sampleKey sampleEnv
                   emptyProvider)))
  = [u ".json"; u "Build"; u "b.json"; u "bad.yml"].
Proof.
  rewrite (proj1 (shown_items_in_label_order sampleJSON sampleYAML sampleKey
                    sampleEnv emptyProvider eq_refl
                    ltac:(intros H; discriminate H))).
  reflexivity.
Defined.
